(** * Session cookie encryption: [lib/encrypt.js]

    A shallow embedding of the encode/decode pipeline of [lib/encrypt.js]
    ([encryptData] / [decryptData] and their helpers) together with the
    properties of its wire format, its validation order and its error
    behaviour.

    Layout of the development:
    - [Buffer] and [String] built-ins the module relies on (hex, base64,
      UTF-8, [split], [includes], [indexOf], [toLowerCase]), modelled
      executably;
    - JavaScript values, truthiness, strict equality and property access;
    - exceptions and a small monad that threads them and records the calls
      made to the [crypto] module;
    - the [crypto] and [JSON] primitives as an interface ([Platform]) with
      the laws some theorems assume about them;
    - the functions of [lib/encrypt.js], in source order;
    - a small executable platform on which the assumptions are discharged;
    - the theorems. *)

From Stdlib Require Import Strings.String Strings.Ascii Strings.Byte List ZArith Bool Lia.
Import ListNotations.
Local Open Scope string_scope.
Local Open Scope list_scope.

(* ===================================================================== *)
(** * Bytes and bit groups *)
(* ===================================================================== *)

(** A [Buffer] is a sequence of octets. *)
Definition bytes : Type := list byte.

(** Four bits, most significant first: one hexadecimal digit. *)
Definition nibble : Type := (bool * bool * bool * bool)%type.

(** Six bits, most significant first: one base64 digit. *)
Definition sextet : Type := (bool * bool * bool * bool * bool * bool)%type.

Definition bit (b : bool) : nat := if b then 1 else 0.

Definition nibble_index (d : nibble) : nat :=
  let '(a, b, c, e) := d in
  8 * bit a + 4 * bit b + 2 * bit c + bit e.

Definition sextet_index (d : sextet) : nat :=
  let '(a, b, c, e, f, g) := d in
  32 * bit a + 16 * bit b + 8 * bit c + 4 * bit e + 2 * bit f + bit g.

Definition nibble_of_nat (n : nat) : nibble :=
  (Nat.testbit n 3, Nat.testbit n 2, Nat.testbit n 1, Nat.testbit n 0).

Definition sextet_of_nat (n : nat) : sextet :=
  (Nat.testbit n 5, Nat.testbit n 4, Nat.testbit n 3,
   Nat.testbit n 2, Nat.testbit n 1, Nat.testbit n 0).

(** The two hexadecimal digits of an octet (high digit first). *)
Definition hi_nibble (x : byte) : nibble :=
  let '(_, (_, (_, (_, (b4, (b5, (b6, b7))))))) := Byte.to_bits x in
  (b7, b6, b5, b4).

Definition lo_nibble (x : byte) : nibble :=
  let '(b0, (b1, (b2, (b3, _)))) := Byte.to_bits x in
  (b3, b2, b1, b0).

Definition byte_of_nibbles (h l : nibble) : byte :=
  let '(h3, h2, h1, h0) := h in
  let '(l3, l2, l1, l0) := l in
  Byte.of_bits (l0, (l1, (l2, (l3, (h0, (h1, (h2, h3))))))).

(* ===================================================================== *)
(** * Strings and code units *)
(* ===================================================================== *)

(** A JavaScript string is a sequence of UTF-16 code units.  The strings
    the module is given and the strings it builds (the cookie, the
    fields of the configuration, the JSON text) are values of [string],
    one character per code unit: these are the strings whose code units
    are below 256.  The text [extractComponents] decodes from a buffer
    can hold any code unit, and is a list of them. *)
Definition code_unit : Type := N.

Definition utf16 : Type := list code_unit.

(** The code units of a [string]. *)
Fixpoint units (s : string) : utf16 :=
  match s with
  | EmptyString => []
  | String c s' => N_of_ascii c :: units s'
  end.

(** The low eight bits of a code unit, as a character. *)
Definition low_octet (u : code_unit) : ascii := ascii_of_N (N.land u 255).

Definition byte_of_N (n : N) : byte :=
  match Byte.of_N n with
  | Some x => x
  | None => x00
  end.

(* ===================================================================== *)
(** * [Buffer] encodings: hex *)
(* ===================================================================== *)

Definition hex_digits : string := "0123456789abcdef".

Definition char_at (s : string) (n : nat) : ascii :=
  match String.get n s with
  | Some c => c
  | None => "000"%char
  end.

Definition hexchar (d : nibble) : ascii := char_at hex_digits (nibble_index d).

(** Value of a hexadecimal digit, either case; [None] for any other
    character. *)
Definition unhex (c : ascii) : option nibble :=
  let n := nat_of_ascii c in
  if ((48 <=? n) && (n <=? 57))%nat then Some (nibble_of_nat (n - 48))
  else if ((97 <=? n) && (n <=? 102))%nat then Some (nibble_of_nat (n - 87))
  else if ((65 <=? n) && (n <=? 70))%nat then Some (nibble_of_nat (n - 55))
  else None.

(** [buf.toString('hex')]: two lower-case digits per octet. *)
Fixpoint hex_encode (b : bytes) : string :=
  match b with
  | [] => ""
  | x :: b' => String (hexchar (hi_nibble x)) (String (hexchar (lo_nibble x)) (hex_encode b'))
  end.

(** [Buffer.from(text, 'hex')]: takes the code units two at a time from
    the left, looks each one up by its low eight bits (the decoder
    narrows a code unit to an octet before it reads it as a digit, so a
    unit such as U+0130 is read as the digit [0], whose code 0x30 is its
    low octet), and stops, without raising, at the first pair that is
    not two hexadecimal digits; a trailing single unit is dropped. *)
Fixpoint hex_decode (text : utf16) : bytes :=
  match text with
  | u1 :: u2 :: rest =>
      match unhex (low_octet u1), unhex (low_octet u2) with
      | Some h, Some l => byte_of_nibbles h l :: hex_decode rest
      | _, _ => []
      end
  | _ => []
  end.

(* ===================================================================== *)
(** * [Buffer] encodings: base64 *)
(* ===================================================================== *)

Definition b64_alphabet : string :=
  "ABCDEFGHIJKLMNOPQRSTUVWXYZabcdefghijklmnopqrstuvwxyz0123456789+/".

Definition b64char (d : sextet) : ascii := char_at b64_alphabet (sextet_index d).

(** Value of a base64 digit; the URL-safe digits [-] and [_] are accepted
    as well. *)
Definition unbase64 (c : ascii) : option sextet :=
  let n := nat_of_ascii c in
  if ((65 <=? n) && (n <=? 90))%nat then Some (sextet_of_nat (n - 65))
  else if ((97 <=? n) && (n <=? 122))%nat then Some (sextet_of_nat (n - 71))
  else if ((48 <=? n) && (n <=? 57))%nat then Some (sextet_of_nat (n + 4))
  else if ((n =? 43) || (n =? 45))%nat then Some (sextet_of_nat 62)
  else if ((n =? 47) || (n =? 95))%nat then Some (sextet_of_nat 63)
  else None.

Definition pad : ascii := "="%char.

(** The four digits of a group of three octets, and of a final group of
    one or two octets. *)
Definition b64_group3 (x y z : byte) : sextet * sextet * sextet * sextet :=
  let '(x0, (x1, (x2, (x3, (x4, (x5, (x6, x7))))))) := Byte.to_bits x in
  let '(y0, (y1, (y2, (y3, (y4, (y5, (y6, y7))))))) := Byte.to_bits y in
  let '(z0, (z1, (z2, (z3, (z4, (z5, (z6, z7))))))) := Byte.to_bits z in
  ((x7, x6, x5, x4, x3, x2), (x1, x0, y7, y6, y5, y4),
   (y3, y2, y1, y0, z7, z6), (z5, z4, z3, z2, z1, z0)).

(** The octets a pair of consecutive digits contributes, by position in
    the group of four. *)
Definition b64_byte1 (a b : sextet) : byte :=
  let '(a5, a4, a3, a2, a1, a0) := a in
  let '(b5, b4, _, _, _, _) := b in
  Byte.of_bits (b4, (b5, (a0, (a1, (a2, (a3, (a4, a5))))))).

Definition b64_byte2 (b c : sextet) : byte :=
  let '(_, _, b3, b2, b1, b0) := b in
  let '(c5, c4, c3, c2, _, _) := c in
  Byte.of_bits (c2, (c3, (c4, (c5, (b0, (b1, (b2, b3))))))).

Definition b64_byte3 (c d : sextet) : byte :=
  let '(_, _, _, _, c1, c0) := c in
  let '(d5, d4, d3, d2, d1, d0) := d in
  Byte.of_bits (d0, (d1, (d2, (d3, (d4, (d5, (c0, c1))))))).

(** [buf.toString('base64')]: standard alphabet, padded with [=]. *)
Fixpoint base64_encode (b : bytes) : string :=
  match b with
  | [] => ""
  | [x] =>
      let '(d1, d2, _, _) := b64_group3 x x00 x00 in
      String (b64char d1) (String (b64char d2) (String pad (String pad "")))
  | [x; y] =>
      let '(d1, d2, d3, _) := b64_group3 x y x00 in
      String (b64char d1) (String (b64char d2) (String (b64char d3) (String pad "")))
  | x :: y :: z :: b' =>
      let '(d1, d2, d3, d4) := b64_group3 x y z in
      String (b64char d1) (String (b64char d2) (String (b64char d3)
        (String (b64char d4) (base64_encode b'))))
  end.

(** The digits [Buffer.from(text, 'base64')] reads: characters outside the
    alphabet are skipped, and reading stops at the first [=]. *)
Fixpoint b64_sextets (s : string) : list sextet :=
  match s with
  | EmptyString => []
  | String c s' =>
      match unbase64 c with
      | Some d => d :: b64_sextets s'
      | None => if Ascii.eqb c pad then [] else b64_sextets s'
      end
  end.

(** Octets of a digit sequence: three per full group of four, and one or
    two for a final group of two or three digits. *)
Fixpoint b64_bytes (l : list sextet) : bytes :=
  match l with
  | a :: b :: c :: d :: l' =>
      b64_byte1 a b :: b64_byte2 b c :: b64_byte3 c d :: b64_bytes l'
  | [a; b; c] => [b64_byte1 a b; b64_byte2 b c]
  | [a; b] => [b64_byte1 a b]
  | _ => []
  end.

(** [Buffer.from(text, 'base64')]: lenient, never raises. *)
Definition base64_decode (s : string) : bytes := b64_bytes (b64_sextets s).

(* ===================================================================== *)
(** * [Buffer] encodings: UTF-8 *)
(* ===================================================================== *)

(** The octets of a code unit below 256: one below 128, two from there
    on. *)
Definition utf8_char (c : ascii) : bytes :=
  let n := N_of_ascii c in
  if (n <? 128)%N then [byte_of_N n]
  else [byte_of_N (192 + N.shiftr n 6); byte_of_N (128 + N.land n 63)].

(** [Buffer.from(string)], and the octets [Buffer.byteLength(string)]
    counts. *)
Fixpoint utf8_bytes (s : string) : bytes :=
  match s with
  | EmptyString => []
  | String c s' => utf8_char c ++ utf8_bytes s'
  end.

(** The decoder inside a sequence: the bits read so far, the number of
    continuation octets needed after the next one, and the range the
    next one must lie in. *)
Record utf8_pending : Type :=
  mkPending { p_bits : N; p_more : nat; p_low : N; p_high : N }.

(** What an octet is at the start of a sequence: a character of its own,
    the lead of a sequence of two, three or four octets, or neither.
    The ranges are those of well-formed UTF-8: no overlong form, no
    surrogate, nothing above U+10FFFF. *)
Inductive utf8_lead : Type :=
| Single (u : code_unit)
| Lead (p : utf8_pending)
| Invalid.

Definition utf8_lead_of (x : byte) : utf8_lead :=
  let n := Byte.to_N x in
  if (n <=? 127)%N then Single n
  else if ((194 <=? n) && (n <=? 223))%N then
    Lead (mkPending (N.land n 31) 0 128 191)
  else if ((224 <=? n) && (n <=? 239))%N then
    Lead (mkPending (N.land n 15) 1
            (if (n =? 224)%N then 160 else 128) (if (n =? 237)%N then 159 else 191))
  else if ((240 <=? n) && (n <=? 244))%N then
    Lead (mkPending (N.land n 7) 2
            (if (n =? 240)%N then 144 else 128) (if (n =? 244)%N then 143 else 191))
  else Invalid.

(** U+FFFD, which stands for octets that are not UTF-8. *)
Definition replacement : code_unit := 65533%N.

(** The code units of a code point: itself, or a surrogate pair from
    U+10000 on. *)
Definition utf16_of_code_point (cp : N) : utf16 :=
  if (cp <? 65536)%N then [cp]
  else [(55296 + N.shiftr (cp - 65536) 10)%N; (56320 + N.land (cp - 65536) 1023)%N].

(** The UTF-8 decoder.  An octet that cannot continue the sequence under
    way ends it with one U+FFFD and is read again as the start of a
    sequence; an octet that can start none gives one U+FFFD; so does a
    sequence the input ends in the middle of. *)
Fixpoint utf8_decode (st : option utf8_pending) (b : bytes) : utf16 :=
  match b with
  | [] =>
      match st with
      | Some _ => [replacement]
      | None => []
      end
  | x :: b' =>
      let start :=
        match utf8_lead_of x with
        | Single u => u :: utf8_decode None b'
        | Lead p => utf8_decode (Some p) b'
        | Invalid => replacement :: utf8_decode None b'
        end in
      match st with
      | None => start
      | Some p =>
          let n := Byte.to_N x in
          if ((p_low p <=? n) && (n <=? p_high p))%N then
            let cp := (N.shiftl (p_bits p) 6 + N.land n 63)%N in
            match p_more p with
            | O => utf16_of_code_point cp ++ utf8_decode None b'
            | S k => utf8_decode (Some (mkPending cp k 128 191)) b'
            end
          else replacement :: start
      end
  end.

(** [buf.toString('utf8')]. *)
Definition utf8_toString (b : bytes) : utf16 := utf8_decode None b.

(* ===================================================================== *)
(** * [String] built-ins *)
(* ===================================================================== *)

(** [s.indexOf(sub)]: position of the first occurrence, or [-1]. *)
Fixpoint indexOf (s sub : string) : Z :=
  if String.prefix sub s then 0%Z
  else match s with
       | EmptyString => (-1)%Z
       | String _ s' => let i := indexOf s' sub in
                        if (i <? 0)%Z then (-1)%Z else (i + 1)%Z
       end.

(** [s.includes(sub)]. *)
Fixpoint includes (s sub : string) : bool :=
  String.prefix sub s ||
  match s with
  | EmptyString => false
  | String _ s' => includes s' sub
  end.

(** The lower-case form of a code unit below 256: the letters [A] to
    [Z], and the accented capitals U+00C0 to U+00DE but the sign
    U+00D7, lie 32 below theirs. *)
Definition lower (c : ascii) : ascii :=
  let n := nat_of_ascii c in
  if ((65 <=? n) && (n <=? 90))%nat
     || ((192 <=? n) && (n <=? 222) && negb (n =? 215))%nat
  then ascii_of_nat (n + 32) else c.

(** [s.toLowerCase()]. *)
Fixpoint lowercase (s : string) : string :=
  match s with
  | EmptyString => EmptyString
  | String c s' => String (lower c) (lowercase s')
  end.

(** [parts.join(sep)]. *)
Definition join (sep : string) (parts : list string) : string :=
  String.concat sep parts.

(** The delimiter of the frame, [.], as a code unit. *)
Definition dot : code_unit := 46%N.

(** [text.includes(c)] for a pattern [c] of one code unit. *)
Fixpoint includes_unit (text : utf16) (c : code_unit) : bool :=
  match text with
  | [] => false
  | u :: text' => N.eqb u c || includes_unit text' c
  end.

(** [text.split(sep)] for a separator of one code unit: never empty, one
    more component than there are separators. *)
Fixpoint split (sep : code_unit) (text : utf16) : list utf16 :=
  match text with
  | [] => [[]]
  | u :: text' =>
      if N.eqb u sep then [] :: split sep text'
      else match split sep text' with
           | h :: t => (u :: h) :: t
           | [] => [[u]]
           end
  end.

(** Number of occurrences of a code unit. *)
Fixpoint count_unit (c : code_unit) (text : utf16) : nat :=
  match text with
  | [] => 0
  | u :: text' => (if N.eqb u c then 1 else 0) + count_unit c text'
  end.

(* ===================================================================== *)
(** * JavaScript values *)
(* ===================================================================== *)

(** The values the module handles.  Numbers are the integral ones (and
    [NaN]); strings are those of code units below 256; an object is its
    list of own properties, in order. *)
#[warnings="-register-all"]
Inductive value : Type :=
| Undefined
| Null
| Bool (b : bool)
| Num (n : Z)
| NaN
| Str (s : string)
| Arr (items : list value)
| Obj (props : list (string * value)).

(** [!!v]. *)
Definition truthy (v : value) : bool :=
  match v with
  | Undefined | Null | NaN => false
  | Bool b => b
  | Num n => negb (n =? 0)%Z
  | Str s => negb (String.eqb s "")
  | Arr _ | Obj _ => true
  end.

(** [a === b] when one side at least is a primitive, which is the only
    way the module uses it (against [undefined] and [false]); two objects
    would be compared by identity, which values here do not carry. *)
Definition strict_eq (a b : value) : bool :=
  match a, b with
  | Undefined, Undefined => true
  | Null, Null => true
  | Bool x, Bool y => Bool.eqb x y
  | Num x, Num y => (x =? y)%Z
  | Str x, Str y => String.eqb x y
  | _, _ => false
  end.

Definition strict_neq (a b : value) : bool := negb (strict_eq a b).

(** [v !== Object(v)]: [Object] returns an object as it is and wraps a
    primitive, so the test holds exactly of primitives. *)
Definition is_primitive (v : value) : bool :=
  match v with
  | Arr _ | Obj _ => false
  | _ => true
  end.

Fixpoint lookup (k : string) (props : list (string * value)) : value :=
  match props with
  | [] => Undefined
  | (k', v) :: ps => if String.eqb k k' then v else lookup k ps
  end.

(* ===================================================================== *)
(** * Exceptions, and the monad of the module's functions *)
(* ===================================================================== *)

Inductive error_class : Type := Error | TypeError | EvalError | RangeError | SyntaxError.

(** A thrown error: its constructor and its message. *)
Record exn : Type := mkExn { cls : error_class; message : string }.

Inductive result (A : Type) : Type :=
| Ok (a : A)
| Throw (e : exn).
Arguments Ok {A} a.
Arguments Throw {A} e.

(** The functions of the [crypto] module the code calls. *)
Inductive call : Type :=
| RandomBytes | CreateCipheriv | CipherUpdate | CipherFinal | GetAuthTag
| CreateDecipheriv | SetAuthTag | DecipherUpdate | DecipherFinal.

(** A computation yields the [crypto] calls it made, in order, and either
    a value or the exception that stopped it. *)
Definition M (A : Type) : Type := (list call * result A)%type.

Definition calls {A} (m : M A) : list call := fst m.
Definition outcome {A} (m : M A) : result A := snd m.

Definition ret {A} (a : A) : M A := ([], Ok a).
Definition throw {A} (e : exn) : M A := ([], Throw e).
Definition lift {A} (r : result A) : M A := ([], r).
Definition crypto {A} (c : call) (r : result A) : M A := ([c], r).

Definition bind {A B} (m : M A) (k : A -> M B) : M B :=
  match m with
  | (t, Ok a) => let '(t', r) := k a in (t ++ t', r)
  | (t, Throw e) => (t, Throw e)
  end.

Declare Scope js_scope.
Delimit Scope js_scope with js.
Notation "x <- m ;; k" := (bind m (fun x => k))
  (at level 61, m at next level, right associativity) : js_scope.
Notation "' pat <- m ;; k" := (bind m (fun x => match x with pat => k end))
  (at level 61, pat pattern, m at next level, right associativity) : js_scope.
Local Open Scope js_scope.

(** The errors the module throws, named as the specification names their
    kinds. *)
Definition err_payload : exn :=       (* InvalidPayload *)
  mkExn TypeError "Session data is invalid, cannot encrypt".
Definition err_opts : exn :=          (* InvalidConfig *)
  mkExn Error "Cannot encrypt session data, encryption opts {algo, ivlen, secret} is required".
Definition err_size : exn :=          (* SizeLimitExceeded *)
  mkExn Error "Cannot encrypt the session, max cookie length exceeded".
Definition err_input : exn :=         (* InvalidInput *)
  mkExn Error "Cannot read encrypted cookie, invalid data".
Definition err_frame_text : exn :=    (* MalformedFrame: no delimiter *)
  mkExn EvalError "Cannot evaluate encrypted text, invalid data".
Definition err_frame_count : exn :=   (* MalformedFrame: components *)
  mkExn RangeError "Cannot evaluate encrypted text, invalid number of components".
Definition err_json : exn :=          (* CorruptPayload *)
  mkExn EvalError "Cannot convert decoded cookie string to valid JSON".

(** The two structural errors of the frame parser. *)
Definition MalformedFrame (e : exn) : Prop := e = err_frame_text \/ e = err_frame_count.

(** Errors the runtime raises on the module's behalf. *)
Definition err_null_property : exn :=
  mkExn TypeError "Cannot read properties of null".
Definition err_not_a_function : exn :=
  mkExn TypeError "method.toLowerCase is not a function".
Definition err_not_a_string : exn :=
  mkExn TypeError "The argument must be of type string or an instance of Buffer".

(** [o.k]: throws on [undefined] and [null]; a primitive has none of the
    properties the module reads. *)
Definition get (o : value) (k : string) : M value :=
  match o with
  | Undefined | Null => throw err_null_property
  | Obj props => ret (lookup k props)
  | _ => ret Undefined
  end.

(** [method.toLowerCase()]. *)
Definition toLowerCase (v : value) : M string :=
  match v with
  | Str s => ret (lowercase s)
  | _ => throw err_not_a_function
  end.

(** [Buffer.byteLength(v)]. *)
Definition byteLength (v : value) : M Z :=
  match v with
  | Str s => ret (Z.of_nat (List.length (utf8_bytes s)))
  | _ => throw err_not_a_string
  end.

(** [Buffer.from(v, 'base64')]. *)
Definition Buffer_from_base64 (v : value) : M bytes :=
  match v with
  | Str s => ret (base64_decode s)
  | _ => throw err_not_a_string
  end.

(* ===================================================================== *)
(** * The platform: [crypto] and [JSON] *)
(* ===================================================================== *)

(** The primitives of the runtime the module calls and does not define.
    A cipher context is a mutable object in the source; here each method
    returns the context it leaves behind.  [crypto.randomBytes] draws
    from the entropy source of the system: what it returns depends on
    the state of that source when it is called, which a run of
    [encryptData] is given and which differs from one run to the
    next. *)
Class Platform : Type := {
  Cipher : Type;
  Decipher : Type;
  (** State of the entropy source. *)
  Entropy : Type;
  (** [crypto.randomBytes(len)], on a state of the entropy source *)
  randomBytes : Entropy -> value -> result bytes;
  (** [crypto.createCipheriv(method, secret, iv)] *)
  createCipheriv : value -> value -> bytes -> result Cipher;
  (** [cipher.update(data)], [cipher.final()], [cipher.getAuthTag()] *)
  cipher_update : Cipher -> value -> result (Cipher * bytes);
  cipher_final : Cipher -> result (Cipher * bytes);
  cipher_getAuthTag : Cipher -> result bytes;
  (** [crypto.createDecipheriv(method, secret, iv)] *)
  createDecipheriv : value -> value -> bytes -> result Decipher;
  (** [typeof decipher.setAuthTag === 'function'] *)
  decipher_has_setAuthTag : Decipher -> bool;
  (** [decipher.setAuthTag(tag)] *)
  decipher_setAuthTag : Decipher -> bytes -> result Decipher;
  (** [decipher.update(data, 'binary', 'utf8')], [decipher.final('utf8')] *)
  decipher_update : Decipher -> bytes -> result (Decipher * string);
  decipher_final : Decipher -> result (Decipher * string);
  (** [JSON.stringify(v)]: a string, or [undefined] *)
  JSON_stringify : value -> result value;
  (** [JSON.parse(text)] *)
  JSON_parse : string -> result value
}.

(** What the theorems on the shape of an encoded cookie assume of the
    platform. *)
Class PlatformLaws (P : Platform) : Prop := {
  (** [randomBytes] takes a non-negative number and returns that many
      octets. *)
  randomBytes_length : forall rng len b,
    randomBytes rng len = Ok b ->
    exists n, len = Num n /\ (0 <= n)%Z /\ List.length b = Z.to_nat n;
  (** [JSON.stringify] returns [undefined] or a non-empty text. *)
  stringify_text : forall v w,
    JSON_stringify v = Ok w ->
    w = Undefined \/ exists s, w = Str s /\ s <> EmptyString;
  (** [cipher.update] rejects [undefined]. *)
  update_undefined : forall c, exists e, cipher_update c Undefined = Throw e;
  (** A cipher does not encrypt a non-empty text to nothing. *)
  ciphertext_nonempty : forall c s c1 b1 c2 b2,
    cipher_update c (Str s) = Ok (c1, b1) ->
    cipher_final c1 = Ok (c2, b2) ->
    s <> EmptyString -> b1 ++ b2 <> []
}.

(** What the round trip assumes of an authenticated cipher: it has a tag,
    and a decipher of the same method, key and vector, given the tag,
    returns the text that was encrypted. *)
Class AeadLaws (P : Platform) : Prop := {
  tag_nonempty : forall c t, cipher_getAuthTag c = Ok t -> t <> [];
  decipher_inverts : forall method secret iv c0 s c1 b1 c2 b2 t,
    createCipheriv method secret iv = Ok c0 ->
    cipher_update c0 (Str s) = Ok (c1, b1) ->
    cipher_final c1 = Ok (c2, b2) ->
    cipher_getAuthTag c2 = Ok t ->
    exists d0 d1 d2 s1 d3 s2,
      createDecipheriv method secret iv = Ok d0 /\
      decipher_has_setAuthTag d0 = true /\
      decipher_setAuthTag d0 t = Ok d1 /\
      decipher_update d1 (b1 ++ b2) = Ok (d2, s1) /\
      decipher_final d2 = Ok (d3, s2) /\
      (s1 ++ s2)%string = s
}.

(* ===================================================================== *)
(** * [lib/encrypt.js] *)
(* ===================================================================== *)

(** What [extractComponents] returns: [{iv, auth, data}]. *)
Record components : Type := mkComponents { iv : bytes; auth : bytes; data : bytes }.

(** [components[i]]: [undefined], here [None], past the end. *)
Definition component (cs : list utf16) (i : nat) : option utf16 := nth_error cs i.

(** [!c] for a component: it is [undefined] or the empty string. *)
Definition falsy_text (c : option utf16) : bool :=
  match c with
  | Some (_ :: _) => false
  | _ => true
  end.

Definition component_text (cs : list utf16) (i : nat) : utf16 :=
  nth i cs [].

(** [opts.k] for a configuration that is not [undefined] or [null]. *)
Definition field (opts : value) (k : string) : value :=
  match opts with
  | Obj props => lookup k props
  | _ => Undefined
  end.

(** The configuration has a truthy [algo], [ivlen] and [secret]. *)
Definition complete (opts : value) : bool :=
  truthy (field opts "algo") && truthy (field opts "ivlen") && truthy (field opts "secret").

(** The text a cookie stands for: its base64-decoded form, read as
    UTF-8. *)
Definition frame_text (cookie : string) : utf16 :=
  utf8_toString (base64_decode cookie).

(** A decoded text no frame can be read from: it has no delimiter, or
    fewer than three components, or one of the first three is empty. *)
Definition malformed_frame (text : utf16) : Prop :=
  includes_unit text dot = false
  \/ List.length (split dot text) < 3
  \/ exists i, i < 3 /\ nth i (split dot text) [] = [].

Section Encrypt.

Context {P : Platform}.

Definition ENC_MAX_LEN : Z := 4093.

Definition convertHexToBuffer (text : utf16) : bytes := hex_decode text.

Definition genIv (rng : Entropy) (len : value) : M bytes :=
  crypto RandomBytes (randomBytes rng len).

Definition extractComponents (data : value) : M components :=
  buf <- Buffer_from_base64 data ;;
  let text := utf8_toString buf in
  if negb (includes_unit text dot) then throw err_frame_text
  else
    let cs := split dot text in
    if (List.length cs <? 3)%nat
       || (falsy_text (component cs 0)
           || falsy_text (component cs 1)
           || falsy_text (component cs 2))
    then throw err_frame_count
    else ret {| iv := convertHexToBuffer (component_text cs 0);
                auth := convertHexToBuffer (component_text cs 1);
                data := convertHexToBuffer (component_text cs 2) |}.

Definition genCipher (method secret : value) (iv : bytes) : M Cipher :=
  crypto CreateCipheriv (createCipheriv method secret iv).

Definition genDecipher (method secret : value) (iv : bytes) : M Decipher :=
  crypto CreateDecipheriv (createDecipheriv method secret iv).

(** Returns the ciphertext along with the context [update] and [final]
    left behind, which [encryptData] goes on to ask for the tag. *)
Definition encryptSession (cipher : Cipher) (data : value) : M (Cipher * bytes) :=
  text <- lift (JSON_stringify data) ;;
  '(c1, b1) <- crypto CipherUpdate (cipher_update cipher text) ;;
  '(c2, b2) <- crypto CipherFinal (cipher_final c1) ;;
  ret (c2, b1 ++ b2).

Definition compileEncryptString (iv auth text : bytes) : string :=
  base64_encode (utf8_bytes (join "." [hex_encode iv; hex_encode auth; hex_encode text])).

Definition decodeToUtf8 (cipher : Decipher) (text : bytes) : M string :=
  '(d1, s1) <- crypto DecipherUpdate (decipher_update cipher text) ;;
  '(_, s2) <- crypto DecipherFinal (decipher_final d1) ;;
  ret (s1 ++ s2)%string.

(** The test after a successful parse: [!json || json === void 0]. *)
Definition parsed_nothing (json : value) : bool :=
  negb (truthy json) || strict_eq json Undefined.

Definition decodeToJson (text : string) : M value :=
  match JSON_parse text with
  | Throw _ => throw err_json
  | Ok json => if parsed_nothing json then throw err_json else ret json
  end.

Definition assertOptsExist (opts : value) : M bool :=
  if strict_eq opts Undefined then throw err_opts
  else
    algo <- get opts "algo" ;;
    if negb (truthy algo) then throw err_opts
    else
      ivlen <- get opts "ivlen" ;;
      if negb (truthy ivlen) then throw err_opts
      else
        secret <- get opts "secret" ;;
        if negb (truthy secret) then throw err_opts
        else ret true.

Definition getCipherAuthTag (cipher : Cipher) (method : value) : M bytes :=
  m <- toLowerCase method ;;
  if strict_neq (Num (indexOf m "gcm")) (Bool false)
     || strict_neq (Num (indexOf m "ccm")) (Bool false)
     || strict_neq (Num (indexOf m "ocb")) (Bool false)
  then crypto GetAuthTag (cipher_getAuthTag cipher)
  else ret [].

(** [encryptData], on the state of the entropy source its call to
    [crypto.randomBytes] finds. *)
Definition encryptData (rng : Entropy) (data opts : value) : M string :=
  if is_primitive data then throw err_payload
  else
    _ <- assertOptsExist opts ;;
    ivlen <- get opts "ivlen" ;;
    iv <- genIv rng ivlen ;;
    algo <- get opts "algo" ;;
    secret <- get opts "secret" ;;
    cipher <- genCipher algo secret iv ;;
    '(cipher', encSession) <- encryptSession cipher data ;;
    algo' <- get opts "algo" ;;
    tag <- getCipherAuthTag cipher' algo' ;;
    let encText := compileEncryptString iv tag encSession in
    len <- byteLength (Str encText) ;;
    if (len >? ENC_MAX_LEN)%Z then throw err_size
    else ret encText.

(** [encryptData] up to the string it builds, that is, without its size
    check: the theorems on the ceiling speak of that string. *)
Definition encText_of (rng : Entropy) (data opts : value) : M string :=
  if is_primitive data then throw err_payload
  else
    _ <- assertOptsExist opts ;;
    ivlen <- get opts "ivlen" ;;
    iv <- genIv rng ivlen ;;
    algo <- get opts "algo" ;;
    secret <- get opts "secret" ;;
    cipher <- genCipher algo secret iv ;;
    '(cipher', encSession) <- encryptSession cipher data ;;
    algo' <- get opts "algo" ;;
    tag <- getCipherAuthTag cipher' algo' ;;
    ret (compileEncryptString iv tag encSession).

(** [decryptData].  In the test that guards [setAuthTag] the first
    conjunct, [components.auth], is a [Buffer], hence truthy; the other
    two are kept. *)
Definition decryptData (text opts : value) : M value :=
  if negb (truthy text) then throw err_input
  else
    len <- byteLength text ;;
    if (len <? 1)%Z then throw err_input
    else
      _ <- assertOptsExist opts ;;
      components <- extractComponents text ;;
      algo <- get opts "algo" ;;
      secret <- get opts "secret" ;;
      cipher <- genDecipher algo secret (iv components) ;;
      cipher' <- (if (0 <? List.length (auth components))%nat
                     && decipher_has_setAuthTag cipher
                  then crypto SetAuthTag (decipher_setAuthTag cipher (auth components))
                  else ret cipher) ;;
      text' <- decodeToUtf8 cipher' (data components) ;;
      decodeToJson text'.

End Encrypt.

(** A successful run of [encText_of], step by step: the payload is an
    object, the configuration is complete, and each call to the platform
    returned; the cookie is built from the vector, the tag and the
    ciphertext. *)
Inductive encoded {P : Platform} (rng : Entropy) (data opts : value) : string -> Prop :=
| encoded_intro (iv : bytes) (c0 : Cipher) (text : value) (c1 : Cipher) (b1 : bytes)
    (c2 : Cipher) (b2 : bytes) (method : string) (tag : bytes) :
    is_primitive data = false ->
    complete opts = true ->
    randomBytes rng (field opts "ivlen") = Ok iv ->
    createCipheriv (field opts "algo") (field opts "secret") iv = Ok c0 ->
    JSON_stringify data = Ok text ->
    cipher_update c0 text = Ok (c1, b1) ->
    cipher_final c1 = Ok (c2, b2) ->
    field opts "algo" = Str method ->
    cipher_getAuthTag c2 = Ok tag ->
    encoded rng data opts (compileEncryptString iv tag (b1 ++ b2)).

(** A run of [encryptData] that has its cipher: the payload is an
    object, the configuration is complete, [randomBytes] returned the
    vector and [createCipheriv] the cipher. *)
Definition keyed {P : Platform} (rng : Entropy) (data opts : value)
    (iv : bytes) (c0 : Cipher) : Prop :=
  is_primitive data = false
  /\ complete opts = true
  /\ randomBytes rng (field opts "ivlen") = Ok iv
  /\ createCipheriv (field opts "algo") (field opts "secret") iv = Ok c0.

(** A failing run of [encryptData], by the step that fails and the error
    it fails with: an error of the module or of the runtime at a check,
    and the error the call threw at a call to the platform. *)
Inductive encode_fails {P : Platform} (rng : Entropy) (data opts : value) : exn -> Prop :=
| fails_payload :
    is_primitive data = true ->
    encode_fails rng data opts err_payload
| fails_encode_null :
    is_primitive data = false -> opts = Null ->
    encode_fails rng data opts err_null_property
| fails_encode_opts :
    is_primitive data = false -> opts <> Null -> complete opts = false ->
    encode_fails rng data opts err_opts
| fails_randomBytes (e : exn) :
    is_primitive data = false -> complete opts = true ->
    randomBytes rng (field opts "ivlen") = Throw e ->
    encode_fails rng data opts e
| fails_createCipheriv (iv : bytes) (e : exn) :
    is_primitive data = false -> complete opts = true ->
    randomBytes rng (field opts "ivlen") = Ok iv ->
    createCipheriv (field opts "algo") (field opts "secret") iv = Throw e ->
    encode_fails rng data opts e
| fails_stringify (iv : bytes) (c0 : Cipher) (e : exn) :
    keyed rng data opts iv c0 ->
    JSON_stringify data = Throw e ->
    encode_fails rng data opts e
| fails_cipher_update (iv : bytes) (c0 : Cipher) (text : value) (e : exn) :
    keyed rng data opts iv c0 ->
    JSON_stringify data = Ok text ->
    cipher_update c0 text = Throw e ->
    encode_fails rng data opts e
| fails_cipher_final (iv : bytes) (c0 : Cipher) (text : value) (c1 : Cipher) (b1 : bytes)
    (e : exn) :
    keyed rng data opts iv c0 ->
    JSON_stringify data = Ok text ->
    cipher_update c0 text = Ok (c1, b1) ->
    cipher_final c1 = Throw e ->
    encode_fails rng data opts e
| fails_method (iv : bytes) (c0 : Cipher) (text : value) (c1 : Cipher) (b1 : bytes)
    (c2 : Cipher) (b2 : bytes) :
    keyed rng data opts iv c0 ->
    JSON_stringify data = Ok text ->
    cipher_update c0 text = Ok (c1, b1) ->
    cipher_final c1 = Ok (c2, b2) ->
    (forall method, field opts "algo" <> Str method) ->
    encode_fails rng data opts err_not_a_function
| fails_getAuthTag (iv : bytes) (c0 : Cipher) (text : value) (c1 : Cipher) (b1 : bytes)
    (c2 : Cipher) (b2 : bytes) (method : string) (e : exn) :
    keyed rng data opts iv c0 ->
    JSON_stringify data = Ok text ->
    cipher_update c0 text = Ok (c1, b1) ->
    cipher_final c1 = Ok (c2, b2) ->
    field opts "algo" = Str method ->
    cipher_getAuthTag c2 = Throw e ->
    encode_fails rng data opts e
| fails_size (s : string) :
    encoded rng data opts s ->
    (Z.of_nat (List.length (utf8_bytes s)) > 4093)%Z ->
    encode_fails rng data opts err_size.





(** The characters of base64 text: letters, digits, [+], [/] and the
    padding [=]. *)
Definition cookie_char (c : ascii) : bool :=
  let n := nat_of_ascii c in
  ((65 <=? n) && (n <=? 90) || (97 <=? n) && (n <=? 122) || (48 <=? n) && (n <=? 57)
   || (n =? 43) || (n =? 47) || (n =? 61))%nat.

Fixpoint all_chars (p : ascii -> bool) (s : string) : bool :=
  match s with
  | EmptyString => true
  | String c s' => p c && all_chars p s'
  end.

(** The characters of ASCII: a code unit below 128. *)
Definition ascii_char (c : ascii) : bool := (N_of_ascii c <? 128)%N.

(* ===================================================================== *)
(** * A small executable platform *)
(* ===================================================================== *)

(** An implementation of [Platform] small enough to run inside the
    logic: a counter in place of the entropy source, a one-octet XOR
    stream cipher over the characters of a text, whose methods carry a
    tag exactly when their name contains [gcm], and a printer and parser
    for the JSON texts of [value].  It stands for no real cipher; the theorems hold of every
    platform, and this one shows their assumptions can be met and lets
    the module be run on concrete inputs. *)
Module Ref.

Definition xor_byte (a b : byte) : byte :=
  let '(a0, (a1, (a2, (a3, (a4, (a5, (a6, a7))))))) := Byte.to_bits a in
  let '(b0, (b1, (b2, (b3, (b4, (b5, (b6, b7))))))) := Byte.to_bits b in
  Byte.of_bits (xorb a0 b0, (xorb a1 b1, (xorb a2 b2, (xorb a3 b3,
               (xorb a4 b4, (xorb a5 b5, (xorb a6 b6, xorb a7 b7))))))).

Definition checksum (b : bytes) : byte := fold_left xor_byte b x00.

Fixpoint bytes_eqb (a b : bytes) : bool :=
  match a, b with
  | [], [] => true
  | x :: a', y :: b' => Byte.eqb x y && bytes_eqb a' b'
  | _, _ => false
  end.

Definition octet (n : nat) : byte :=
  match Byte.of_nat (n mod 256) with
  | Some b => b
  | None => x00
  end.

Definition err_size_type : exn :=
  mkExn TypeError "The size argument must be of type number".
Definition err_size_range : exn :=
  mkExn RangeError "The value of size is out of range".
Definition err_cipher : exn :=
  mkExn TypeError "Invalid cipher, key or initialization vector".
Definition err_state : exn :=
  mkExn Error "Invalid state for operation getAuthTag".
Definition err_auth : exn :=
  mkExn Error "Unsupported state or unable to authenticate data".
Definition err_syntax : exn :=
  mkExn SyntaxError "Unexpected token in JSON".

(** The entropy source is a counter: the octets it gives are those at
    the positions from the counter on. *)
Definition ref_randomBytes (rng : nat) (len : value) : result bytes :=
  match len with
  | Num n =>
      if ((0 <=? n) && (n <=? 2147483647))%Z
      then Ok (map (fun i => octet (37 * (rng + i) + 11)) (seq 0 (Z.to_nat n)))
      else Throw err_size_range
  | _ => Throw err_size_type
  end.

(** Cipher context: the key octet, whether the method carries a tag, and
    the plain octets seen so far. *)
Record ref_cipher : Type := mkCipher { ckey : byte; ctagged : bool; cseen : bytes }.

(** Decipher context: the same, and the tag it was given. *)
Record ref_decipher : Type :=
  mkDecipher { dkey : byte; dtagged : bool; dseen : bytes; dtag : option bytes }.

Definition ref_key (method secret : value) (iv : bytes) : option (byte * bool) :=
  match method, secret with
  | Str m, Str k =>
      match utf8_bytes k, iv with
      | k0 :: _, i0 :: _ => Some (xor_byte k0 i0, includes (lowercase m) "gcm")
      | _, _ => None
      end
  | _, _ => None
  end.

Definition ref_createCipheriv (method secret : value) (iv : bytes) : result ref_cipher :=
  match ref_key method secret iv with
  | Some (k, t) => Ok (mkCipher k t [])
  | None => Throw err_cipher
  end.

Definition ref_update (c : ref_cipher) (v : value) : result (ref_cipher * bytes) :=
  match v with
  | Str s =>
      let b := list_byte_of_string s in
      Ok (mkCipher (ckey c) (ctagged c) (cseen c ++ b), map (xor_byte (ckey c)) b)
  | _ => Throw err_not_a_string
  end.

Definition ref_final (c : ref_cipher) : result (ref_cipher * bytes) := Ok (c, []).

Definition ref_tag (k : byte) (seen : bytes) : bytes := [k; checksum seen].

Definition ref_getAuthTag (c : ref_cipher) : result bytes :=
  if ctagged c then Ok (ref_tag (ckey c) (cseen c)) else Throw err_state.

Definition ref_createDecipheriv (method secret : value) (iv : bytes) : result ref_decipher :=
  match ref_key method secret iv with
  | Some (k, t) => Ok (mkDecipher k t [] None)
  | None => Throw err_cipher
  end.

Definition ref_setAuthTag (d : ref_decipher) (t : bytes) : result ref_decipher :=
  if dtagged d then Ok (mkDecipher (dkey d) (dtagged d) (dseen d) (Some t))
  else Throw err_state.

Definition ref_dupdate (d : ref_decipher) (b : bytes) : result (ref_decipher * string) :=
  let p := map (xor_byte (dkey d)) b in
  Ok (mkDecipher (dkey d) (dtagged d) (dseen d ++ p) (dtag d), string_of_list_byte p).

Definition ref_dfinal (d : ref_decipher) : result (ref_decipher * string) :=
  if dtagged d then
    match dtag d with
    | Some t => if bytes_eqb t (ref_tag (dkey d) (dseen d)) then Ok (d, EmptyString)
                else Throw err_auth
    | None => Throw err_auth
    end
  else Ok (d, EmptyString).

(** ** JSON texts *)

Definition dquote : ascii := ascii_of_nat 34.
Definition backslash : ascii := ascii_of_nat 92.

Definition digit (n : N) : ascii := ascii_of_N (48 + n mod 10).

Fixpoint digits (fuel : nat) (n : N) : string :=
  match fuel with
  | O => String (digit n) EmptyString
  | S f => if (n <? 10)%N then String (digit n) EmptyString
           else (digits f (n / 10) ++ String (digit n) EmptyString)%string
  end.

Definition print_num (n : Z) : string :=
  let m := Z.to_N (Z.abs n) in
  ((if (n <? 0)%Z then "-" else "") ++ digits (N.size_nat m) m)%string.

Fixpoint escape (s : string) : string :=
  match s with
  | EmptyString => EmptyString
  | String c s' =>
      if Ascii.eqb c dquote || Ascii.eqb c backslash
      then String backslash (String c (escape s'))
      else String c (escape s')
  end.

Definition quote (s : string) : string :=
  String dquote (escape s ++ String dquote EmptyString).

(** The text of a value; [None] where [JSON.stringify] gives
    [undefined].  In an array [undefined] prints as [null]; in an object
    a property whose value is [undefined] is left out. *)
Fixpoint print (v : value) : option string :=
  match v with
  | Undefined => None
  | Null | NaN => Some "null"
  | Bool true => Some "true"
  | Bool false => Some "false"
  | Num n => Some (print_num n)
  | Str s => Some (quote s)
  | Arr items =>
      let texts := map (fun x => match print x with Some t => t | None => "null" end) items in
      Some ("[" ++ join "," texts ++ "]")%string
  | Obj props =>
      let member := fun kv : string * value =>
        match print (snd kv) with
        | Some t => [(quote (fst kv) ++ ":" ++ t)%string]
        | None => []
        end in
      Some ("{" ++ join "," (flat_map member props) ++ "}")%string
  end.

Definition ref_stringify (v : value) : result value :=
  match print v with
  | Some t => Ok (Str t)
  | None => Ok Undefined
  end.

Definition is_digit (c : ascii) : bool :=
  let n := nat_of_ascii c in ((48 <=? n) && (n <=? 57))%nat.

(** Reads a run of digits: the number read so far, and the text left. *)
Fixpoint read_digits (s : string) (acc : N) : N * string :=
  match s with
  | String c s' =>
      if is_digit c then read_digits s' (10 * acc + (N_of_ascii c - 48))%N
      else (acc, s)
  | EmptyString => (acc, s)
  end.

Definition read_num (s : string) : option (value * string) :=
  match s with
  | String c r =>
      if Ascii.eqb c "-"%char then
        match r with
        | String c' _ =>
            if is_digit c' then
              let '(n, r') := read_digits r 0%N in Some (Num (- Z.of_N n), r')
            else None
        | EmptyString => None
        end
      else if is_digit c then
        let '(n, r') := read_digits s 0%N in Some (Num (Z.of_N n), r')
      else None
  | EmptyString => None
  end.

(** Reads a string literal after its opening quote. *)
Fixpoint read_string (s : string) : option (string * string) :=
  match s with
  | EmptyString => None
  | String c s' =>
      if Ascii.eqb c dquote then Some (EmptyString, s')
      else if Ascii.eqb c backslash then
        match s' with
        | String e s'' =>
            match read_string s'' with
            | Some (t, r) => Some (String e t, r)
            | None => None
            end
        | EmptyString => None
        end
      else
        match read_string s' with
        | Some (t, r) => Some (String c t, r)
        | None => None
        end
  end.

Definition literal (word : string) (v : value) (s : string) : option (value * string) :=
  if String.prefix word s
  then Some (v, String.substring (String.length word) (String.length s - String.length word) s)
  else None.

Fixpoint parse_value (fuel : nat) (s : string) {struct fuel} : option (value * string) :=
  match fuel with
  | O => None
  | S f =>
      match s with
      | EmptyString => None
      | String c r =>
          if Ascii.eqb c "["%char then
            match r with
            | String c' r' =>
                if Ascii.eqb c' "]"%char then Some (Arr [], r')
                else match parse_items f r with
                     | Some (vs, r'') => Some (Arr vs, r'')
                     | None => None
                     end
            | EmptyString => None
            end
          else if Ascii.eqb c "{"%char then
            match r with
            | String c' r' =>
                if Ascii.eqb c' "}"%char then Some (Obj [], r')
                else match parse_members f r with
                     | Some (ms, r'') => Some (Obj ms, r'')
                     | None => None
                     end
            | EmptyString => None
            end
          else if Ascii.eqb c dquote then
            match read_string r with
            | Some (t, r') => Some (Str t, r')
            | None => None
            end
          else if Ascii.eqb c "n"%char then literal "null" Null s
          else if Ascii.eqb c "t"%char then literal "true" (Bool true) s
          else if Ascii.eqb c "f"%char then literal "false" (Bool false) s
          else read_num s
      end
  end
with parse_items (fuel : nat) (s : string) {struct fuel} : option (list value * string) :=
  match fuel with
  | O => None
  | S f =>
      match parse_value f s with
      | Some (v, String c r) =>
          if Ascii.eqb c ","%char then
            match parse_items f r with
            | Some (vs, r') => Some (v :: vs, r')
            | None => None
            end
          else if Ascii.eqb c "]"%char then Some ([v], r)
          else None
      | _ => None
      end
  end
with parse_members (fuel : nat) (s : string) {struct fuel}
  : option (list (string * value) * string) :=
  match fuel with
  | O => None
  | S f =>
      match s with
      | String q r =>
          if Ascii.eqb q dquote then
            match read_string r with
            | Some (k, String colon r1) =>
                if Ascii.eqb colon ":"%char then
                  match parse_value f r1 with
                  | Some (v, String c r2) =>
                      if Ascii.eqb c ","%char then
                        match parse_members f r2 with
                        | Some (ms, r') => Some ((k, v) :: ms, r')
                        | None => None
                        end
                      else if Ascii.eqb c "}"%char then Some ([(k, v)], r2)
                      else None
                  | _ => None
                  end
                else None
            | _ => None
            end
          else None
      | EmptyString => None
      end
  end.

Definition ref_parse (s : string) : result value :=
  match parse_value (S (String.length s)) s with
  | Some (v, EmptyString) => Ok v
  | _ => Throw err_syntax
  end.

#[export] Instance platform : Platform := {|
  Cipher := ref_cipher;
  Decipher := ref_decipher;
  Entropy := nat;
  randomBytes := ref_randomBytes;
  createCipheriv := ref_createCipheriv;
  cipher_update := ref_update;
  cipher_final := ref_final;
  cipher_getAuthTag := ref_getAuthTag;
  createDecipheriv := ref_createDecipheriv;
  decipher_has_setAuthTag := fun _ => true;
  decipher_setAuthTag := ref_setAuthTag;
  decipher_update := ref_dupdate;
  decipher_final := ref_dfinal;
  JSON_stringify := ref_stringify;
  JSON_parse := ref_parse
|}.

End Ref.

(** Configurations and payloads used in the examples. *)
Definition opts_gcm : value :=
  Obj [("algo", Str "aes-256-gcm"); ("ivlen", Num 12);
       ("secret", Str "0123456789abcdef0123456789abcdef")].

Definition opts_cbc : value :=
  Obj [("algo", Str "aes-256-cbc"); ("ivlen", Num 16);
       ("secret", Str "0123456789abcdef0123456789abcdef")].

(** A configuration without [secret]. *)
Definition opts_no_secret : value :=
  Obj [("algo", Str "aes-256-gcm"); ("ivlen", Num 12)].

(** [opts_gcm] with its properties in another order, another [ivlen]
    and a property the module does not read. *)
Definition opts_gcm_other : value :=
  Obj [("secret", Str "0123456789abcdef0123456789abcdef"); ("ttl", Num 3600);
       ("ivlen", Num 999); ("algo", Str "aes-256-gcm")].

(** A payload with a property [JSON.stringify] leaves out. *)
Definition sparse_session : value := Obj [("draft", Undefined)].

Definition session : value :=
  Obj [("user", Str "alice"); ("visits", Num 3); ("admin", Bool false)].

(** The cookie of [session] under [opts_gcm] on the platform [Ref], with
    its counter at 0. *)
Definition session_cookie : string :=
  "MGIzMDU1N2E5ZmM0ZTkwZTMzNTg3ZGEyLjNiNmMuNDAxOTRlNDg1ZTQ5MTkwMTE5NWE1NzUyNTg1ZTE5MTcxOTRkNTI0ODUyNGY0ODE5MDEwODE3MTk1YTVmNTY1MjU1MTkwMTVkNWE1NzQ4NWU0Ng==".

(** The third component of its decoded text. *)
Definition session_ciphertext_hex : string :=
  "40194e485e491901195a5752585e1917194d5248524f4819010817195a5f56525519015d5a57485e46".

(** A cookie whose decoded text is [aa.bb.] followed by U+0130 twice:
    a third component that holds no hexadecimal digit, and whose two
    code units have the low octet 0x30 of the digit [0]. *)
Definition dotted_capitals_cookie : string := "YWEuYmIuxLDEsA==".

(** A payload whose text alone is longer than a cookie may be. *)
Definition long_session : value :=
  Obj [("items", Arr (repeat (Num 7) 1600))].

Definition encode_calls : list call :=
  [RandomBytes; CreateCipheriv; CipherUpdate; CipherFinal; GetAuthTag].



(* ===================================================================== *)
(** * Code units *)
(* ===================================================================== *)

Lemma units_app (a b : string) : units (a ++ b) = units a ++ units b.
Proof.
  induction a as [|c a IH]; cbn [String.append units app]; [reflexivity|].
  rewrite IH. reflexivity.
Qed.

Lemma units_empty (s : string) : units s = [] <-> s = EmptyString.
Proof. destruct s; cbn; split; congruence. Qed.

Lemma units_length (s : string) : List.length (units s) = String.length s.
Proof.
  induction s as [|c s IH]; [reflexivity|].
  cbn [units List.length String.length]. rewrite IH. reflexivity.
Qed.

Lemma N_of_ascii_inj (c c' : ascii) : N_of_ascii c = N_of_ascii c' -> c = c'.
Proof.
  intros H. rewrite <- (ascii_N_embedding c), <- (ascii_N_embedding c'). congruence.
Qed.

Lemma units_inj (s s' : string) : units s = units s' -> s = s'.
Proof.
  revert s'. induction s as [|c s IH]; intros [|c' s'] H; try discriminate H.
  - reflexivity.
  - cbn in H. injection H as Hc Hs.
    apply N_of_ascii_inj in Hc. apply IH in Hs. congruence.
Qed.

(** The low octet of a code unit below 256 is the unit. *)
Lemma low_octet_unit (c : ascii) : low_octet (N_of_ascii c) = c.
Proof. destruct c as [[] [] [] [] [] [] [] []]; reflexivity. Qed.

(* ===================================================================== *)
(** * Encodings: hex *)
(* ===================================================================== *)

Lemma unhex_hexchar (d : nibble) : unhex (hexchar d) = Some d.
Proof. destruct d as [[[[] []] []] []]; reflexivity. Qed.

Lemma byte_of_nibbles_split (x : byte) :
  byte_of_nibbles (hi_nibble x) (lo_nibble x) = x.
Proof.
  unfold byte_of_nibbles, hi_nibble, lo_nibble.
  destruct (Byte.to_bits x) as (b0 & b1 & b2 & b3 & b4 & b5 & b6 & b7) eqn:Hx.
  rewrite <- Hx. apply Byte.of_bits_to_bits.
Qed.

(** Decoding reads back every octet of an encoded prefix and goes on
    with what follows it. *)
Lemma hex_decode_app (b : bytes) (rest : utf16) :
  hex_decode (units (hex_encode b) ++ rest) = b ++ hex_decode rest.
Proof.
  induction b as [|x b IH]; [reflexivity|].
  cbn [hex_encode units hex_decode app].
  rewrite !low_octet_unit, !unhex_hexchar, byte_of_nibbles_split, IH. reflexivity.
Qed.

Lemma string_app_empty (s : string) : (s ++ "")%string = s.
Proof. induction s; cbn; congruence. Qed.

Lemma hex_decode_encode (b : bytes) : hex_decode (units (hex_encode b)) = b.
Proof.
  rewrite <- (app_nil_r (units (hex_encode b))), hex_decode_app.
  cbn. apply app_nil_r.
Qed.

Lemma hex_encode_length (b : bytes) :
  String.length (hex_encode b) = 2 * List.length b.
Proof. induction b; cbn [hex_encode String.length List.length]; lia. Qed.

Lemma hex_encode_empty (b : bytes) : hex_encode b = EmptyString <-> b = [].
Proof.
  split; [|intros ->; reflexivity].
  destruct b; [reflexivity|discriminate].
Qed.

(* ===================================================================== *)
(** * Encodings: base64 *)
(* ===================================================================== *)

Lemma unbase64_b64char (d : sextet) : unbase64 (b64char d) = Some d.
Proof. destruct d as [[[[[[] []] []] []] []] []]; reflexivity. Qed.

Lemma b64_group3_bytes (x y z : byte) (d1 d2 d3 d4 : sextet) :
  b64_group3 x y z = (d1, d2, d3, d4) ->
  b64_byte1 d1 d2 = x /\ b64_byte2 d2 d3 = y /\ b64_byte3 d3 d4 = z.
Proof.
  unfold b64_group3.
  destruct (Byte.to_bits x) as (x0 & x1 & x2 & x3 & x4 & x5 & x6 & x7) eqn:Hx.
  destruct (Byte.to_bits y) as (y0 & y1 & y2 & y3 & y4 & y5 & y6 & y7) eqn:Hy.
  destruct (Byte.to_bits z) as (z0 & z1 & z2 & z3 & z4 & z5 & z6 & z7) eqn:Hz.
  intros H. injection H as <- <- <- <-.
  unfold b64_byte1, b64_byte2, b64_byte3.
  rewrite <- Hx, <- Hy, <- Hz, !Byte.of_bits_to_bits. auto.
Qed.

Lemma b64_sextets_digit (d : sextet) (s : string) :
  b64_sextets (String (b64char d) s) = d :: b64_sextets s.
Proof. cbn [b64_sextets]. rewrite unbase64_b64char. reflexivity. Qed.

Lemma b64_sextets_pad (s : string) : b64_sextets (String pad s) = [].
Proof. reflexivity. Qed.

Lemma base64_decode_encode_upto (n : nat) (b : bytes) :
  List.length b <= n -> base64_decode (base64_encode b) = b.
Proof.
  revert b. induction n as [|n IH]; intros b Hn.
  - destruct b; [reflexivity | cbn in Hn; lia].
  - destruct b as [|x [|y [|z b]]].
    + reflexivity.
    + cbn [base64_encode].
      destruct (b64_group3 x x00 x00) as [[[d1 d2] d3] d4] eqn:G.
      apply b64_group3_bytes in G as (H1 & _ & _).
      unfold base64_decode.
      rewrite !b64_sextets_digit, b64_sextets_pad. cbn [b64_bytes]. congruence.
    + cbn [base64_encode].
      destruct (b64_group3 x y x00) as [[[d1 d2] d3] d4] eqn:G.
      apply b64_group3_bytes in G as (H1 & H2 & _).
      unfold base64_decode.
      rewrite !b64_sextets_digit, b64_sextets_pad. cbn [b64_bytes]. congruence.
    + cbn [base64_encode].
      destruct (b64_group3 x y z) as [[[d1 d2] d3] d4] eqn:G.
      apply b64_group3_bytes in G as (H1 & H2 & H3).
      assert (Hb : base64_decode (base64_encode b) = b)
        by (apply IH; cbn in Hn; lia).
      unfold base64_decode in *.
      rewrite !b64_sextets_digit. cbn [b64_bytes]. congruence.
Qed.

(** [Buffer.from(buf.toString('base64'), 'base64')] is [buf]. *)
Lemma base64_decode_encode (b : bytes) : base64_decode (base64_encode b) = b.
Proof. apply (base64_decode_encode_upto (List.length b)). lia. Qed.

Lemma cookie_char_b64char (d : sextet) : cookie_char (b64char d) = true.
Proof. destruct d as [[[[[[] []] []] []] []] []]; reflexivity. Qed.

Lemma base64_encode_chars_upto (n : nat) (b : bytes) :
  List.length b <= n -> all_chars cookie_char (base64_encode b) = true.
Proof.
  revert b. induction n as [|n IH]; intros b Hn.
  - destruct b; [reflexivity | cbn in Hn; lia].
  - destruct b as [|x [|y [|z b]]]; [reflexivity| | |]; cbn [base64_encode].
    + destruct (b64_group3 x x00 x00) as [[[d1 d2] d3] d4].
      cbn [all_chars]. rewrite !cookie_char_b64char. reflexivity.
    + destruct (b64_group3 x y x00) as [[[d1 d2] d3] d4].
      cbn [all_chars]. rewrite !cookie_char_b64char. reflexivity.
    + destruct (b64_group3 x y z) as [[[d1 d2] d3] d4].
      cbn [all_chars]. rewrite !cookie_char_b64char, IH by (cbn in Hn; lia).
      reflexivity.
Qed.

Lemma cookie_char_ascii (c : ascii) : cookie_char c = true -> ascii_char c = true.
Proof.
  destruct c as [[] [] [] [] [] [] [] []]; vm_compute; intros H;
    first [reflexivity | discriminate H].
Qed.

Lemma all_chars_impl (p q : ascii -> bool) (s : string) :
  (forall c, p c = true -> q c = true) ->
  all_chars p s = true -> all_chars q s = true.
Proof.
  intros Hpq. induction s as [|c s IH]; [reflexivity|].
  cbn [all_chars]. intros H. apply andb_true_iff in H as [Hc Hs].
  rewrite (Hpq c Hc), IH by exact Hs. reflexivity.
Qed.

(** Base64 text is ASCII. *)
Lemma ascii_base64_encode (b : bytes) : all_chars ascii_char (base64_encode b) = true.
Proof.
  apply (all_chars_impl cookie_char); [apply cookie_char_ascii|].
  apply (base64_encode_chars_upto _ _ (le_n _)).
Qed.

(* ===================================================================== *)
(** * Encodings: UTF-8 *)
(* ===================================================================== *)

(** Decoding reads back a code unit below 256 from its octets and goes
    on with what follows them. *)
Lemma utf8_decode_char (c : ascii) (rest : bytes) :
  utf8_decode None (utf8_char c ++ rest) = N_of_ascii c :: utf8_decode None rest.
Proof. destruct c as [[] [] [] [] [] [] [] []]; reflexivity. Qed.

(** [Buffer.from(s).toString('utf8')] is [s]. *)
Lemma utf8_toString_bytes (s : string) : utf8_toString (utf8_bytes s) = units s.
Proof.
  unfold utf8_toString. induction s as [|c s IH]; [reflexivity|].
  cbn [utf8_bytes units]. rewrite utf8_decode_char, IH. reflexivity.
Qed.

Lemma utf8_char_ascii (c : ascii) :
  ascii_char c = true -> List.length (utf8_char c) = 1.
Proof.
  unfold ascii_char, utf8_char. intros ->. reflexivity.
Qed.

Lemma utf8_char_not_empty (c : ascii) : utf8_char c <> [].
Proof. unfold utf8_char. destruct (_ <? _)%N; discriminate. Qed.

(** A text of ASCII characters has one octet per character. *)
Lemma utf8_bytes_length (s : string) :
  all_chars ascii_char s = true -> List.length (utf8_bytes s) = String.length s.
Proof.
  induction s as [|c s IH]; [reflexivity|].
  cbn [all_chars utf8_bytes String.length]. intros H.
  apply andb_true_iff in H as [Hc Hs].
  rewrite length_app, (utf8_char_ascii c Hc), IH by exact Hs. reflexivity.
Qed.

Lemma utf8_bytes_not_empty (s : string) : s <> EmptyString -> utf8_bytes s <> [].
Proof.
  destruct s as [|c s]; [congruence|]. intros _ H.
  cbn [utf8_bytes] in H. apply app_eq_nil in H as [H _].
  now apply utf8_char_not_empty in H.
Qed.

Lemma all_chars_app (p : ascii -> bool) (a b : string) :
  all_chars p (a ++ b) = all_chars p a && all_chars p b.
Proof.
  induction a as [|c a IH]; [reflexivity|].
  cbn [String.append all_chars]. rewrite IH. apply andb_assoc.
Qed.

Lemma ascii_hexchar (d : nibble) : ascii_char (hexchar d) = true.
Proof. destruct d as [[[[] []] []] []]; reflexivity. Qed.

Lemma ascii_hex_encode (b : bytes) : all_chars ascii_char (hex_encode b) = true.
Proof.
  induction b as [|x b IH]; [reflexivity|].
  cbn [hex_encode all_chars]. rewrite !ascii_hexchar, IH. reflexivity.
Qed.

(** The text [compileEncryptString] joins is ASCII. *)
Lemma ascii_join_hex (a b c : bytes) :
  all_chars ascii_char (join "." [hex_encode a; hex_encode b; hex_encode c]) = true.
Proof.
  unfold join. cbn [String.concat].
  rewrite !all_chars_app, !ascii_hex_encode. reflexivity.
Qed.

(* ===================================================================== *)
(** * [includes] and [split] on the delimiter *)
(* ===================================================================== *)

Lemma indexOf_lower_bound (s sub : string) : (-1 <= indexOf s sub)%Z.
Proof.
  induction s as [|c s IH]; cbn [indexOf].
  - destruct (String.prefix sub ""); lia.
  - destruct (String.prefix sub (String c s)); [lia|].
    destruct (indexOf s sub <? 0)%Z eqn:E; lia.
Qed.

(** [indexOf] finds a position exactly when the text includes the
    pattern; otherwise it is [-1]. *)
Lemma indexOf_includes (s sub : string) :
  (includes s sub = true -> (0 <= indexOf s sub)%Z)
  /\ (includes s sub = false -> indexOf s sub = (-1)%Z).
Proof.
  induction s as [|c s [IH1 IH2]]; cbn [indexOf includes].
  - destruct (String.prefix sub ""); cbn; split; intros; (lia || discriminate).
  - destruct (String.prefix sub (String c s)); cbn [orb];
      [split; intros; (lia || discriminate)|].
    destruct (includes s sub).
    + specialize (IH1 eq_refl). split; [intros _|discriminate].
      destruct (Z.ltb_spec (indexOf s sub) 0); lia.
    + specialize (IH2 eq_refl). split; [discriminate|intros _].
      rewrite IH2. reflexivity.
Qed.

Lemma includes_dot_count (text : utf16) :
  includes_unit text dot = negb (count_unit dot text =? 0)%nat.
Proof.
  induction text as [|u text IH]; [reflexivity|].
  cbn [includes_unit count_unit]. rewrite IH.
  destruct (N.eqb u dot); reflexivity.
Qed.

Lemma split_not_nil (sep : code_unit) (text : utf16) : split sep text <> [].
Proof.
  destruct text as [|u text]; cbn; [discriminate|].
  destruct (N.eqb u sep); [discriminate|].
  destruct (split sep text); discriminate.
Qed.

(** One more component than there are separators. *)
Lemma split_length (sep : code_unit) (text : utf16) :
  List.length (split sep text) = S (count_unit sep text).
Proof.
  induction text as [|u text IH]; [reflexivity|].
  cbn [split count_unit].
  destruct (N.eqb u sep); cbn [List.length]; [lia|].
  destruct (split sep text) as [|h t] eqn:E; [now apply split_not_nil in E|].
  cbn [List.length] in *. lia.
Qed.

Lemma split_no_sep (sep : code_unit) (text : utf16) :
  count_unit sep text = 0 -> split sep text = [text].
Proof.
  induction text as [|u text IH]; [reflexivity|].
  cbn [split count_unit].
  destruct (N.eqb u sep); [discriminate|].
  intros H. rewrite IH by exact H. reflexivity.
Qed.

Lemma split_app_sep (sep : code_unit) (a b : utf16) :
  count_unit sep a = 0 ->
  split sep (a ++ sep :: b) = a :: split sep b.
Proof.
  induction a as [|u a IH]; cbn [app split count_unit].
  - intros _. rewrite N.eqb_refl. reflexivity.
  - destruct (N.eqb u sep); [discriminate|].
    intros H. rewrite IH by exact H. reflexivity.
Qed.

Lemma hexchar_not_dot (d : nibble) : N.eqb (N_of_ascii (hexchar d)) dot = false.
Proof. destruct d as [[[[] []] []] []]; reflexivity. Qed.

(** A hex string holds no delimiter. *)
Lemma hex_encode_no_dot (b : bytes) : count_unit dot (units (hex_encode b)) = 0.
Proof.
  induction b as [|x b IH]; [reflexivity|].
  cbn [hex_encode units count_unit]. rewrite !hexchar_not_dot, IH. reflexivity.
Qed.

(** The code units of hex strings joined by dots. *)
Lemma units_join_hex (a : bytes) (parts : list string) :
  parts <> [] ->
  units (join "." (hex_encode a :: parts))
  = units (hex_encode a) ++ dot :: units (join "." parts).
Proof.
  intros H. destruct parts as [|p parts]; [congruence|].
  unfold join. cbn [String.concat]. rewrite units_app. reflexivity.
Qed.

(** The three hex strings joined by dots split back into themselves. *)
Lemma split_join_hex (a b c : bytes) :
  split dot (units (join "." [hex_encode a; hex_encode b; hex_encode c]))
  = [units (hex_encode a); units (hex_encode b); units (hex_encode c)].
Proof.
  rewrite !units_join_hex by discriminate.
  rewrite !split_app_sep by apply hex_encode_no_dot.
  unfold join. cbn [String.concat].
  rewrite split_no_sep by apply hex_encode_no_dot.
  reflexivity.
Qed.

Lemma count_join_hex (a b c : bytes) :
  count_unit dot (units (join "." [hex_encode a; hex_encode b; hex_encode c])) = 2.
Proof.
  pose proof (split_length dot
                (units (join "." [hex_encode a; hex_encode b; hex_encode c]))) as H.
  rewrite split_join_hex in H. cbn [List.length] in H. lia.
Qed.

(** Decoding the cookie [compileEncryptString] builds gives back the
    joined text. *)
Lemma frame_text_compile (a b c : bytes) :
  frame_text (compileEncryptString a b c)
  = units (join "." [hex_encode a; hex_encode b; hex_encode c]).
Proof.
  unfold frame_text, compileEncryptString.
  rewrite base64_decode_encode. apply utf8_toString_bytes.
Qed.

(* ===================================================================== *)
(** * The monad *)
(* ===================================================================== *)

Lemma bind_ret {A B} (a : A) (k : A -> M B) : bind (ret a) k = k a.
Proof. unfold bind, ret. destruct (k a). reflexivity. Qed.

Lemma bind_throw {A B} (e : exn) (k : A -> M B) : bind (throw e) k = throw e.
Proof. reflexivity. Qed.

Lemma bind_assoc {A B C} (m : M A) (f : A -> M B) (g : B -> M C) :
  bind (bind m f) g = bind m (fun a => bind (f a) g).
Proof.
  destruct m as [t [a|e]]; cbn [bind]; [|reflexivity].
  destruct (f a) as [t1 [b|e]]; cbn [bind]; [|reflexivity].
  destruct (g b) as [t2 r]. rewrite app_assoc. reflexivity.
Qed.

Lemma bind_ext {A B} (m : M A) (f g : A -> M B) :
  (forall a, f a = g a) -> bind m f = bind m g.
Proof.
  intros H. destruct m as [t [a|e]]; cbn [bind]; [|reflexivity].
  rewrite H. reflexivity.
Qed.

Lemma outcome_bind {A B} (m : M A) (k : A -> M B) :
  outcome (bind m k)
  = match outcome m with
    | Ok a => outcome (k a)
    | Throw e => Throw e
    end.
Proof.
  destruct m as [t [a|e]]; cbn; [|reflexivity].
  destruct (k a). reflexivity.
Qed.


Lemma outcome_bind_ok {A B} (m : M A) (k : A -> M B) (b : B) :
  outcome (bind m k) = Ok b ->
  exists a, outcome m = Ok a /\ outcome (k a) = Ok b.
Proof.
  rewrite outcome_bind. destruct (outcome m) as [a|e]; [|discriminate].
  intros H. exists a. auto.
Qed.

Lemma outcome_crypto {A} (c : call) (r : result A) : outcome (crypto c r) = r.
Proof. reflexivity. Qed.

(** Inversion of a successful run, one step at a time. *)
Tactic Notation "ok_inv" hyp(H) "as" simple_intropattern(a) ident(Ha) :=
  apply outcome_bind_ok in H as (a & Ha & H).

(* ===================================================================== *)
(** * Validation *)
(* ===================================================================== *)

Lemma truthy_Str (s : string) : truthy (Str s) = true <-> s <> EmptyString.
Proof.
  cbn. destruct (String.eqb_spec s ""); cbn; split; congruence.
Qed.

Section Validation.

Context {P : Platform}.

Lemma get_field (opts : value) (k : string) :
  opts <> Undefined -> opts <> Null -> get opts k = ret (field opts k).
Proof. destruct opts; intros H1 H2; try reflexivity; congruence. Qed.

Lemma assertOptsExist_complete (opts : value) :
  complete opts = true -> assertOptsExist opts = ret true.
Proof.
  unfold complete, assertOptsExist. intros H.
  apply andb_true_iff in H as [H Hs]. apply andb_true_iff in H as [Ha Hi].
  destruct opts; try discriminate Ha.
  cbn -[lookup truthy] in *. rewrite Ha, Hi, Hs. reflexivity.
Qed.

Lemma assertOptsExist_incomplete (opts : value) :
  opts <> Null -> complete opts = false -> assertOptsExist opts = throw err_opts.
Proof.
  unfold complete, assertOptsExist. intros Hn H.
  destruct opts; try reflexivity; try congruence.
  cbn -[lookup truthy] in *.
  destruct (truthy (lookup "algo" props)); [|reflexivity].
  destruct (truthy (lookup "ivlen" props)); [|reflexivity].
  destruct (truthy (lookup "secret" props)); [discriminate|reflexivity].
Qed.

Lemma assertOptsExist_ok (opts : value) (b : bool) :
  outcome (assertOptsExist opts) = Ok b ->
  complete opts = true /\ opts <> Undefined /\ opts <> Null.
Proof.
  destruct (complete opts) eqn:Hc.
  - intros _. repeat split; intros ->; discriminate.
  - destruct opts; try discriminate;
      rewrite assertOptsExist_incomplete by (assumption || discriminate);
      discriminate.
Qed.

End Validation.

(* ===================================================================== *)
(** * Order of the checks, and their errors *)
(* ===================================================================== *)

Section Checks.

Context {P : Platform}.

(** [encryptData] is [encText_of] followed by the size check. *)
Lemma encryptData_split (rng : Entropy) (data opts : value) :
  encryptData rng data opts
  = (encText <- encText_of rng data opts ;;
     len <- byteLength (Str encText) ;;
     if (len >? ENC_MAX_LEN)%Z then throw err_size else ret encText).
Proof.
  unfold encryptData, encText_of.
  destruct (is_primitive data); [reflexivity|].
  do 6 (rewrite bind_assoc; apply bind_ext; intros ?).
  rewrite bind_assoc; apply bind_ext; intros [cipher' encSession].
  do 2 (rewrite bind_assoc; apply bind_ext; intros ?).
  rewrite bind_ret. reflexivity.
Qed.

Lemma encryptData_primitive (rng : Entropy) (data opts : value) :
  is_primitive data = true -> encryptData rng data opts = throw err_payload.
Proof.
  intros H. unfold encryptData. rewrite H. reflexivity.
Qed.

Lemma encryptData_incomplete (rng : Entropy) (data opts : value) :
  is_primitive data = false -> opts <> Null -> complete opts = false ->
  encryptData rng data opts = throw err_opts.
Proof.
  intros Hd Hn Hc. unfold encryptData.
  rewrite Hd, assertOptsExist_incomplete by assumption. reflexivity.
Qed.

Lemma decryptData_empty (opts : value) :
  decryptData (Str "") opts = throw err_input.
Proof. reflexivity. Qed.

(** The two leading checks of [decryptData] pass on a non-empty string. *)
Lemma decryptData_nonempty (s : string) (opts : value) :
  s <> EmptyString ->
  decryptData (Str s) opts
  = (_ <- assertOptsExist opts ;;
     components <- extractComponents (Str s) ;;
     algo <- get opts "algo" ;;
     secret <- get opts "secret" ;;
     cipher <- genDecipher algo secret (iv components) ;;
     cipher' <- (if (0 <? List.length (auth components))%nat
                    && decipher_has_setAuthTag cipher
                 then crypto SetAuthTag (decipher_setAuthTag cipher (auth components))
                 else ret cipher) ;;
     text' <- decodeToUtf8 cipher' (data components) ;;
     decodeToJson text').
Proof.
  intros Hs. unfold decryptData.
  rewrite (proj2 (truthy_Str s) Hs). cbn [negb].
  unfold byteLength. rewrite bind_ret.
  destruct (Z.ltb_spec (Z.of_nat (List.length (utf8_bytes s))) 1) as [Hlt|_];
    [|reflexivity].
  apply utf8_bytes_not_empty in Hs.
  destruct (utf8_bytes s); [congruence | cbn [List.length] in Hlt; lia].
Qed.

Lemma decryptData_incomplete (s : string) (opts : value) :
  s <> EmptyString -> opts <> Null -> complete opts = false ->
  decryptData (Str s) opts = throw err_opts.
Proof.
  intros Hs Hn Hc. rewrite decryptData_nonempty by exact Hs.
  rewrite assertOptsExist_incomplete by assumption. reflexivity.
Qed.

(** C8: for every configuration, [encryptData] throws the invalid-payload
    [TypeError] when the payload is [null] or a primitive (a string, for
    one), and [decryptData] throws the invalid-input [Error] when the
    text is the empty string; both do so having made no call to [crypto]
    (the run is [throw e]: an empty list of calls). *)
Theorem invalid_payload_and_input_rejected (rng : Entropy) (data opts : value) :
  is_primitive data = true ->
  encryptData rng data opts = throw err_payload
  /\ encryptData rng Null opts = throw err_payload
  /\ (forall s, encryptData rng (Str s) opts = throw err_payload)
  /\ decryptData (Str "") opts = throw err_input
  /\ calls (encryptData rng data opts) = []
  /\ calls (decryptData (Str "") opts) = [].
Proof.
  intros H. rewrite (encryptData_primitive rng data opts H).
  repeat split.
Qed.

(** C7, amended: for every configuration that is [undefined] or lacks a
    truthy [algo], [ivlen] or [secret], [encryptData] throws the
    invalid-configuration [Error] when the payload is an object, and
    [decryptData] throws it when the text is a non-empty string; when the
    payload is [null] or a primitive [encryptData] throws the
    invalid-payload error instead, and when the text is empty
    [decryptData] throws the invalid-input error instead, because those
    checks come first.  Either way nothing is returned and [crypto] is
    not called. *)
Theorem incomplete_config_rejected (rng : Entropy) (data opts : value) (s : string) :
  opts <> Null -> complete opts = false ->
  (is_primitive data = false -> encryptData rng data opts = throw err_opts)
  /\ (is_primitive data = true -> encryptData rng data opts = throw err_payload)
  /\ (s <> EmptyString -> decryptData (Str s) opts = throw err_opts)
  /\ decryptData (Str "") opts = throw err_input.
Proof.
  intros Hn Hc. repeat split.
  - intros Hd. now apply encryptData_incomplete.
  - apply encryptData_primitive.
  - intros Hs. now apply decryptData_incomplete.
Qed.

(** [parsed_nothing] holds of the falsy values and of no other. *)
Lemma parsed_nothing_falsy (v : value) :
  parsed_nothing v = true <->
  v = Undefined \/ v = Null \/ v = Bool false \/ v = Num 0 \/ v = NaN \/ v = Str "".
Proof.
  unfold parsed_nothing. split.
  - destruct v as [| |[]|n| |s|l|o]; cbn; intros H; try discriminate; auto 10.
    + destruct (Z.eqb_spec n 0); [subst; auto 10 | discriminate].
    + destruct (String.eqb_spec s ""); [subst; auto 10 | discriminate].
  - intros [->|[->|[->|[->|[->| ->]]]]]; reflexivity.
Qed.

Lemma parsed_nothing_object (v : value) :
  is_primitive v = false -> parsed_nothing v = false.
Proof. destruct v; cbn; congruence. Qed.

Lemma decodeToJson_cases (text : string) :
  (exists e, JSON_parse text = Throw e /\ decodeToJson text = throw err_json)
  \/ (exists v, JSON_parse text = Ok v /\ parsed_nothing v = true
                /\ decodeToJson text = throw err_json)
  \/ (exists v, JSON_parse text = Ok v /\ parsed_nothing v = false
                /\ decodeToJson text = ret v).
Proof.
  unfold decodeToJson.
  destruct (JSON_parse text) as [v|e]; [destruct (parsed_nothing v) eqn:Hv|].
  - right; left. exists v. auto.
  - right; right. exists v. auto.
  - left. exists e. auto.
Qed.

Lemma module_errors_distinct :
  err_json <> err_frame_text /\ err_json <> err_frame_count
  /\ err_json <> err_input /\ err_json <> err_opts
  /\ err_json <> err_payload /\ err_json <> err_size.
Proof. repeat split; discriminate. Qed.

(** C9: [decodeToJson] throws the corrupt-payload [EvalError], and no
    other error, exactly when [JSON.parse] throws or returns a value for
    which [!json || json === void 0] holds (the falsy ones: [undefined],
    [null], [false], [0], [NaN], the empty string); otherwise it returns
    the parsed value, so a value parsed to nothing is never returned.
    The error differs from every other error of the module. *)
Theorem decodeToJson_corrupt_payload (text : string) :
  (outcome (decodeToJson text) = Throw err_json <->
     (exists e, JSON_parse text = Throw e)
     \/ (exists v, JSON_parse text = Ok v /\ parsed_nothing v = true))
  /\ (forall e, outcome (decodeToJson text) = Throw e -> e = err_json)
  /\ (forall v, outcome (decodeToJson text) = Ok v <->
                JSON_parse text = Ok v /\ parsed_nothing v = false)
  /\ (forall v, parsed_nothing v = true <->
                v = Undefined \/ v = Null \/ v = Bool false \/ v = Num 0
                \/ v = NaN \/ v = Str "")
  /\ (err_json <> err_frame_text /\ err_json <> err_frame_count
      /\ err_json <> err_input /\ err_json <> err_opts
      /\ err_json <> err_payload /\ err_json <> err_size).
Proof.
  split; [|split; [|split; [|split]]].
  - destruct (decodeToJson_cases text)
      as [(e & Hp & ->)|[(v & Hp & Hv & ->)|(v & Hp & Hv & ->)]]; cbn.
    + split; [intros _; left; eauto | reflexivity].
    + split; [intros _; right; eauto | reflexivity].
    + split; [discriminate|].
      intros [[e He]|(v' & Hp' & Hv')]; congruence.
  - intros e.
    destruct (decodeToJson_cases text)
      as [(e' & Hp & ->)|[(v & Hp & Hv & ->)|(v & Hp & Hv & ->)]]; cbn;
      congruence.
  - intros w.
    destruct (decodeToJson_cases text)
      as [(e' & Hp & ->)|[(v & Hp & Hv & ->)|(v & Hp & Hv & ->)]]; cbn.
    + split; [discriminate | intros [H _]; congruence].
    + split; [discriminate | intros [H H']; congruence].
    + split; [intros H; injection H as <-; auto | intros [H _]; congruence].
  - apply parsed_nothing_falsy.
  - apply module_errors_distinct.
Qed.

End Checks.

(* ===================================================================== *)
(** * The frame parser *)
(* ===================================================================== *)

Lemma extractComponents_Str (s : string) :
  extractComponents (Str s)
  = if negb (includes_unit (frame_text s) dot) then throw err_frame_text
    else
      let cs := split dot (frame_text s) in
      if (List.length cs <? 3)%nat
         || (falsy_text (component cs 0)
             || falsy_text (component cs 1)
             || falsy_text (component cs 2))
      then throw err_frame_count
      else ret {| iv := hex_decode (component_text cs 0);
                  auth := hex_decode (component_text cs 1);
                  data := hex_decode (component_text cs 2) |}.
Proof.
  unfold extractComponents, Buffer_from_base64. rewrite bind_ret. reflexivity.
Qed.

(** [!components[i]] holds when the component is missing or empty. *)
Lemma falsy_component (cs : list utf16) (i : nat) :
  falsy_text (component cs i) = true <->
  List.length cs <= i \/ nth i cs [] = [].
Proof.
  unfold component.
  destruct (nth_error cs i) as [c|] eqn:E.
  - rewrite (nth_error_nth _ _ _ E).
    assert (i < List.length cs) by (apply nth_error_Some; congruence).
    destruct c as [|u c]; cbn [falsy_text].
    + split; auto.
    + split; [discriminate | intros [?|?]; [lia | discriminate]].
  - apply nth_error_None in E. cbn [falsy_text]. split; auto.
Qed.

(** The guard of [extractComponents] after the delimiter test. *)
Lemma components_guard (cs : list utf16) :
  (List.length cs <? 3)%nat
  || (falsy_text (component cs 0)
      || falsy_text (component cs 1)
      || falsy_text (component cs 2)) = true
  <-> List.length cs < 3 \/ exists i, i < 3 /\ nth i cs [] = [].
Proof.
  rewrite !orb_true_iff, !falsy_component, Nat.ltb_lt.
  split.
  - intros [H|[[[H|H]|[H|H]]|[H|H]]]; try (left; lia).
    + right; exists 0; auto.
    + right; exists 1; auto.
    + right; exists 2; auto.
  - intros [H|(i & Hi & H)]; [auto|].
    right. destruct i as [|[|[|i]]]; [auto .. | lia].
Qed.

Lemma extractComponents_malformed (s : string) :
  malformed_frame (frame_text s) ->
  extractComponents (Str s)
  = throw (if includes_unit (frame_text s) dot then err_frame_count else err_frame_text).
Proof.
  intros H. rewrite extractComponents_Str.
  destruct (includes_unit (frame_text s) dot) eqn:Hi; cbn [negb]; [|reflexivity].
  cbv zeta.
  destruct H as [H|H]; [congruence|].
  apply components_guard in H. rewrite H. reflexivity.
Qed.

Lemma extractComponents_well_formed (s : string) :
  ~ malformed_frame (frame_text s) ->
  extractComponents (Str s)
  = ret {| iv := hex_decode (nth 0 (split dot (frame_text s)) []);
           auth := hex_decode (nth 1 (split dot (frame_text s)) []);
           data := hex_decode (nth 2 (split dot (frame_text s)) []) |}.
Proof.
  intros H. rewrite extractComponents_Str. unfold malformed_frame in H.
  destruct (includes_unit (frame_text s) dot) eqn:Hi; cbn [negb]; [|tauto].
  cbv zeta.
  match goal with |- context [if ?g then _ else _] => destruct g eqn:G end;
    [|reflexivity].
  apply components_guard in G. tauto.
Qed.


Lemma compileEncryptString_not_empty (a b c : bytes) :
  compileEncryptString a b c <> EmptyString.
Proof.
  intros H. pose proof (count_join_hex a b c) as Hc.
  rewrite <- frame_text_compile, H in Hc. discriminate.
Qed.

Section FrameParser.

Context {P : Platform}.

(** C4: when the base64-decoded form of the text has no delimiter, or
    splits into fewer than three components, or has an empty component
    among the first three, the frame parser throws one of its two
    structural errors (the [EvalError] when there is no delimiter, the
    [RangeError] otherwise) and [decryptData] returns nothing, whatever
    the configuration; once the text is non-empty and the configuration
    complete, the error [decryptData] throws is that structural error. *)
Theorem malformed_frame_rejected (s : string) (opts : value) :
  malformed_frame (frame_text s) ->
  exists e,
    MalformedFrame e
    /\ extractComponents (Str s) = throw e
    /\ (includes_unit (frame_text s) dot = false -> e = err_frame_text)
    /\ (includes_unit (frame_text s) dot = true -> e = err_frame_count)
    /\ (forall v, outcome (decryptData (Str s) opts) <> Ok v)
    /\ (s <> EmptyString -> complete opts = true ->
        decryptData (Str s) opts = throw e).
Proof.
  intros Hm. pose proof (extractComponents_malformed s Hm) as He.
  exists (if includes_unit (frame_text s) dot then err_frame_count else err_frame_text).
  split; [|split; [exact He|split; [|split; [|split]]]].
  - unfold MalformedFrame. destruct (includes_unit (frame_text s) dot); auto.
  - intros ->. reflexivity.
  - intros ->. reflexivity.
  - intros v. destruct s as [|c s]; [discriminate|].
    rewrite decryptData_nonempty by discriminate.
    rewrite outcome_bind.
    destruct (outcome (assertOptsExist opts)); [|discriminate].
    rewrite outcome_bind, He. discriminate.
  - intros Hs Hc. rewrite decryptData_nonempty by exact Hs.
    rewrite assertOptsExist_complete by exact Hc.
    rewrite bind_ret, He. reflexivity.
Qed.

(** C3, as the code has it: the frame [compileEncryptString] builds
    around a zero-length tag, which [getCipherAuthTag] documents for the
    methods without one, is refused by [extractComponents] with the
    [RangeError], and so by [decryptData] under every complete
    configuration: the guard tests [components[1]] along with the other
    two. *)
Theorem empty_auth_frame_rejected (iv ct : bytes) :
  frame_text (compileEncryptString iv [] ct)
  = units (hex_encode iv ++ ".." ++ hex_encode ct)%string
  /\ extractComponents (Str (compileEncryptString iv [] ct)) = throw err_frame_count
  /\ (forall opts, complete opts = true ->
      decryptData (Str (compileEncryptString iv [] ct)) opts = throw err_frame_count).
Proof.
  assert (Ht : frame_text (compileEncryptString iv [] ct)
               = units (hex_encode iv ++ ".." ++ hex_encode ct)%string)
    by (rewrite frame_text_compile; reflexivity).
  assert (Hi : includes_unit (frame_text (compileEncryptString iv [] ct)) dot = true)
    by (rewrite includes_dot_count, frame_text_compile, count_join_hex; reflexivity).
  assert (Hm : malformed_frame (frame_text (compileEncryptString iv [] ct))).
  { right; right. exists 1. split; [lia|].
    rewrite frame_text_compile, split_join_hex. reflexivity. }
  pose proof (extractComponents_malformed _ Hm) as He. rewrite Hi in He.
  split; [exact Ht|]. split; [exact He|].
  intros opts Hc.
  rewrite decryptData_nonempty by apply compileEncryptString_not_empty.
  rewrite assertOptsExist_complete by exact Hc.
  rewrite bind_ret, He. reflexivity.
Qed.

End FrameParser.

(** C4 at the text the specification names: the base64 form of [abc]. *)
Lemma malformed_frame_rejected_abc :
  base64_encode (utf8_bytes "abc") = "YWJj"
  /\ malformed_frame (frame_text "YWJj")
  /\ decryptData (P := Ref.platform) (Str "YWJj") opts_gcm = throw err_frame_text.
Proof.
  assert (Hm : malformed_frame (frame_text "YWJj")) by (left; reflexivity).
  split; [reflexivity|]. split; [exact Hm|].
  destruct (malformed_frame_rejected (P := Ref.platform) "YWJj" opts_gcm Hm)
    as (e & _ & _ & He & _ & _ & Hd).
  rewrite Hd; [|discriminate|reflexivity].
  rewrite He; reflexivity.
Defined.

(** C5 fails on this text: it is base64 with characters outside the
    alphabet, and decodes to [zz.aa.bbx], whose first and third
    components are not hex; the parser returns a frame all the same,
    with an empty [iv] and a [data] cut short. *)
Lemma malformed_hex_frame_accepted :
  frame_text "enou*YWEu YmJ4" = units "zz.aa.bbx"
  /\ extractComponents (Str "enou*YWEu YmJ4")
     = ret {| iv := []; auth := [xaa]; data := [xbb] |}.
Proof. split; reflexivity. Qed.

(** The hex decoder reads a code unit by its low octet: in the text of
    [dotted_capitals_cookie] the third component is U+0130 twice, no
    hexadecimal digit, and it decodes to the octet [00]. *)
Lemma low_octets_read_as_digits :
  frame_text dotted_capitals_cookie = units "aa.bb." ++ [304%N; 304%N]
  /\ low_octet 304%N = "0"%char
  /\ extractComponents (Str dotted_capitals_cookie)
     = ret {| iv := [xaa]; auth := [xbb]; data := [x00] |}.
Proof. repeat split. Qed.

(** C5, amended: the frame parser validates neither base64 nor hex.  It
    throws, and then one of its two structural errors, exactly when the
    decoded text is malformed in the sense of C4; on every other text,
    however malformed its base64 or hex, it returns the frame of the
    leniently decoded components.  Hex decoding takes the code units of
    a component two at a time and reads each by its low octet: a pair
    of hexadecimal digits under that reading gives an octet, whatever
    the high octets of the units are, and decoding stops without error
    at the first pair that is not one, or at a single last unit; what
    [toString('hex')] wrote is read back in full. *)
Theorem frame_parser_lenient (s : string) :
  (malformed_frame (frame_text s) ->
   exists e, MalformedFrame e /\ extractComponents (Str s) = throw e)
  /\ (~ malformed_frame (frame_text s) ->
      extractComponents (Str s)
      = ret {| iv := hex_decode (nth 0 (split dot (frame_text s)) []);
               auth := hex_decode (nth 1 (split dot (frame_text s)) []);
               data := hex_decode (nth 2 (split dot (frame_text s)) []) |})
  /\ (forall u1 u2 rest h l,
        unhex (low_octet u1) = Some h -> unhex (low_octet u2) = Some l ->
        hex_decode (u1 :: u2 :: rest) = byte_of_nibbles h l :: hex_decode rest)
  /\ (forall u1 u2 rest,
        unhex (low_octet u1) = None \/ unhex (low_octet u2) = None ->
        hex_decode (u1 :: u2 :: rest) = [])
  /\ (forall u, hex_decode [u] = [])
  /\ hex_decode [] = []
  /\ (forall b rest, hex_decode (units (hex_encode b) ++ rest) = b ++ hex_decode rest).
Proof.
  split; [|split; [|split; [|split; [|split; [|split]]]]].
  - intros Hm. eexists. split; [|apply (extractComponents_malformed s Hm)].
    unfold MalformedFrame. destruct (includes_unit (frame_text s) dot); auto.
  - apply extractComponents_well_formed.
  - intros u1 u2 rest h l H1 H2. cbn [hex_decode]. rewrite H1, H2. reflexivity.
  - intros u1 u2 rest [H|H]; cbn [hex_decode]; rewrite H; [reflexivity|].
    destruct (unhex (low_octet u1)); reflexivity.
  - reflexivity.
  - reflexivity.
  - apply hex_decode_app.
Qed.

(* ===================================================================== *)
(** * The tag, and the size ceiling *)
(* ===================================================================== *)

Section Encode.

Context {P : Platform}.

(** [indexOf] returns a number, and no number is [false]: each of the
    three tests of [getCipherAuthTag] holds, whatever the method. *)
Lemma number_is_not_false (n : Z) : strict_neq (Num n) (Bool false) = true.
Proof. reflexivity. Qed.

Lemma getCipherAuthTag_Str (c : Cipher) (method : string) :
  getCipherAuthTag c (Str method) = crypto GetAuthTag (cipher_getAuthTag c).
Proof.
  unfold getCipherAuthTag, toLowerCase. rewrite bind_ret.
  rewrite !number_is_not_false. reflexivity.
Qed.

Lemma getCipherAuthTag_ok (c : Cipher) (method : value) (tag : bytes) :
  outcome (getCipherAuthTag c method) = Ok tag ->
  (exists m, method = Str m) /\ cipher_getAuthTag c = Ok tag.
Proof.
  destruct method; try discriminate.
  rewrite getCipherAuthTag_Str. cbn. eauto.
Qed.

Lemma encryptData_of_encText (rng : Entropy) (data opts : value) (t : list call)
    (encText : string) :
  encText_of rng data opts = (t, Ok encText) ->
  encryptData rng data opts
  = (t, if (Z.of_nat (List.length (utf8_bytes encText)) >? ENC_MAX_LEN)%Z
        then Throw err_size else Ok encText).
Proof.
  intros H. rewrite encryptData_split, H.
  cbn [bind byteLength ret].
  destruct (Z.of_nat (List.length (utf8_bytes encText)) >? ENC_MAX_LEN)%Z;
    cbn; rewrite app_nil_r; reflexivity.
Qed.

(** C6: once [encryptData] has built the encoded string, it throws the
    size error, returning nothing, if the byte length of the string
    exceeds 4093, and returns the string if the length is at most 4093;
    so no string it returns is longer than 4093 bytes. *)
Theorem size_ceiling (rng : Entropy) (data opts : value) (t : list call)
    (encText : string) :
  encText_of rng data opts = (t, Ok encText) ->
  ENC_MAX_LEN = 4093%Z
  /\ ((Z.of_nat (List.length (utf8_bytes encText)) > 4093)%Z ->
      encryptData rng data opts = (t, Throw err_size))
  /\ ((Z.of_nat (List.length (utf8_bytes encText)) <= 4093)%Z ->
      encryptData rng data opts = (t, Ok encText))
  /\ (forall s, outcome (encryptData rng data opts) = Ok s ->
      s = encText /\ (Z.of_nat (List.length (utf8_bytes s)) <= 4093)%Z).
Proof.
  intros H. rewrite (encryptData_of_encText _ _ _ _ _ H).
  change ENC_MAX_LEN with 4093%Z.
  destruct (Z.gtb_spec (Z.of_nat (List.length (utf8_bytes encText))) 4093) as [Hgt|Hle].
  - split; [reflexivity|]. split; [reflexivity|]. split; [lia|].
    intros s Hs. discriminate Hs.
  - split; [reflexivity|]. split; [lia|]. split; [reflexivity|].
    intros s Hs. cbn in Hs. injection Hs as <-. auto.
Qed.

End Encode.

(* ===================================================================== *)
(** * Successful runs of the encoder *)
(* ===================================================================== *)

Section Runs.

Context {P : Platform}.

Lemma encText_of_encoded (rng : Entropy) (data opts : value) (s : string) :
  outcome (encText_of rng data opts) = Ok s -> encoded rng data opts s.
Proof.
  unfold encText_of. intros H.
  destruct (is_primitive data) eqn:Hd; [discriminate|].
  ok_inv H as b Hb. apply assertOptsExist_ok in Hb as (Hc & Hu & Hn).
  rewrite !(get_field opts _ Hu Hn), bind_ret in H.
  unfold genIv in H. ok_inv H as iv Hiv.
  rewrite !bind_ret in H.
  unfold genCipher in H. ok_inv H as c0 Hc0.
  ok_inv H as [c2 ct] Hs.
  unfold encryptSession in Hs.
  ok_inv Hs as text Htext.
  ok_inv Hs as [c1 b1] Hu1.
  ok_inv Hs as [c2' b2] Hf.
  cbn in Hs. injection Hs as <- <-.
  rewrite bind_ret in H.
  ok_inv H as tag Htag.
  apply getCipherAuthTag_ok in Htag as ((m & Hm) & Htag).
  cbn in H. injection H as <-.
  now apply (encoded_intro rng data opts iv c0 text c1 b1 c2' b2 m tag).
Qed.

Lemma encryptData_encoded (rng : Entropy) (data opts : value) (s : string) :
  outcome (encryptData rng data opts) = Ok s ->
  encoded rng data opts s /\ (Z.of_nat (List.length (utf8_bytes s)) <= ENC_MAX_LEN)%Z.
Proof.
  intros H.
  destruct (encText_of rng data opts) as [t [encText|e]] eqn:E.
  - rewrite (encryptData_of_encText _ _ _ _ _ E) in H. cbn [outcome snd] in H.
    destruct (Z.gtb_spec (Z.of_nat (List.length (utf8_bytes encText))) ENC_MAX_LEN)
      as [Hgt|Hle]; [discriminate H|].
    injection H as <-. split; [|exact Hle].
    apply encText_of_encoded. rewrite E. reflexivity.
  - rewrite encryptData_split, E in H. discriminate H.
Qed.

End Runs.

(* ===================================================================== *)
(** * The shape of a cookie, and the round trip *)
(* ===================================================================== *)

Lemma complete_object (opts : value) :
  complete opts = true -> opts <> Undefined /\ opts <> Null.
Proof. destruct opts; cbn; intros H; split; congruence. Qed.

Lemma hex_encode_not_empty (b : bytes) : b <> [] -> hex_encode b <> EmptyString.
Proof. destruct b; [congruence | discriminate]. Qed.

Section Shape.

Context {P : Platform} {L : PlatformLaws P}.

(** The vector of a run is as long as the truthy, hence positive,
    [ivlen] says. *)
Lemma encoded_iv (rng : Entropy) (opts : value) (iv : bytes) :
  complete opts = true ->
  randomBytes rng (field opts "ivlen") = Ok iv ->
  exists n, field opts "ivlen" = Num n /\ (0 < n)%Z /\ List.length iv = Z.to_nat n.
Proof.
  intros Hc Hr.
  destruct (randomBytes_length _ _ _ Hr) as (n & Hn & H0 & Hlen).
  exists n. split; [exact Hn|]. split; [|exact Hlen].
  unfold complete in Hc. rewrite Hn in Hc.
  apply andb_true_iff in Hc as [Hc _]. apply andb_true_iff in Hc as [_ Hc].
  cbn in Hc. destruct (Z.eqb_spec n 0); [discriminate | lia].
Qed.

(** What is encrypted is a non-empty text, and so is its ciphertext. *)
Lemma encoded_ciphertext (data text : value) (c0 c1 c2 : Cipher) (b1 b2 : bytes) :
  JSON_stringify data = Ok text ->
  cipher_update c0 text = Ok (c1, b1) ->
  cipher_final c1 = Ok (c2, b2) ->
  (exists s, text = Str s /\ s <> EmptyString) /\ b1 ++ b2 <> [].
Proof.
  intros Hs Hu Hf.
  destruct (stringify_text _ _ Hs) as [->|(s & -> & Hne)].
  - destruct (update_undefined c0) as [e He]. congruence.
  - split; [eauto|]. exact (ciphertext_nonempty _ _ _ _ _ _ Hu Hf Hne).
Qed.

(** C10: the string a successful [encryptData] returns base64-decodes to
    a text with exactly two delimiters, which splits into exactly three
    components, the hex forms of the vector, the tag and the ciphertext;
    the first is non-empty because the vector has the truthy, hence
    positive, length [ivlen], and the third because the text that was
    encrypted is not empty.  ([randomBytes], [JSON.stringify] and the
    cipher are assumed as [PlatformLaws] states.) *)
Theorem encoded_cookie_shape (rng : Entropy) (data opts : value) (s : string) :
  outcome (encryptData rng data opts) = Ok s ->
  count_unit dot (frame_text s) = 2
  /\ exists iv tag ct,
       split dot (frame_text s)
       = [units (hex_encode iv); units (hex_encode tag); units (hex_encode ct)]
       /\ hex_encode iv <> EmptyString
       /\ hex_encode ct <> EmptyString
       /\ (exists n, field opts "ivlen" = Num n /\ (0 < n)%Z
                     /\ List.length iv = Z.to_nat n)
       /\ ct <> [].
Proof.
  intros H. apply encryptData_encoded in H as [H _].
  destruct H as [iv c0 text c1 b1 c2 b2 m tag Hd Hc Hr Hc0 Hs Hu Hf Hm Ht].
  rewrite frame_text_compile. split; [apply count_join_hex|].
  exists iv, tag, (b1 ++ b2).
  destruct (encoded_iv rng opts iv Hc Hr) as (n & Hn & Hpos & Hlen).
  destruct (encoded_ciphertext data text c0 c1 c2 b1 b2 Hs Hu Hf) as (_ & Hct).
  split; [apply split_join_hex|].
  split; [|split; [|split; [eauto|exact Hct]]].
  - apply hex_encode_not_empty. intros ->. cbn in Hlen. lia.
  - apply hex_encode_not_empty. exact Hct.
Qed.

End Shape.

Section RoundTrip.

Context {P : Platform} {L : PlatformLaws P} {A : AeadLaws P}.

(** The frame parser reads back the three buffers of a cookie none of
    which is empty. *)
Lemma extractComponents_compile (iv tag ct : bytes) :
  iv <> [] -> tag <> [] -> ct <> [] ->
  extractComponents (Str (compileEncryptString iv tag ct))
  = ret {| iv := iv; auth := tag; data := ct |}.
Proof.
  intros Hiv Htag Hct.
  rewrite extractComponents_well_formed.
  - rewrite frame_text_compile, split_join_hex. cbn [nth].
    rewrite !hex_decode_encode. reflexivity.
  - rewrite frame_text_compile. unfold malformed_frame.
    rewrite includes_dot_count, count_join_hex, split_join_hex.
    intros [H|[H|(i & Hi & H)]]; [discriminate | cbn in H; lia |].
    destruct i as [|[|[|i]]]; cbn [nth] in H; [| | |lia];
      apply units_empty, hex_encode_empty in H; contradiction.
Qed.

(** C1, amended: whenever [encryptData] returns a string, [decryptData]
    of that string under the same configuration returns the payload,
    given that [JSON.parse] reads the payload back from the text
    [JSON.stringify] gave for it, and that the platform is as
    [PlatformLaws] and [AeadLaws] state (the decipher, given the tag,
    inverts the cipher).  [encryptData] does not return a string for
    every accepted pair: it throws when the cipher refuses the
    configuration and when the result is longer than 4093 bytes. *)
Theorem decrypt_encrypt (rng : Entropy) (payload opts : value) (s : string) :
  outcome (encryptData rng payload opts) = Ok s ->
  (forall text, JSON_stringify payload = Ok (Str text) -> JSON_parse text = Ok payload) ->
  outcome (decryptData (Str s) opts) = Ok payload.
Proof.
  intros H Hjson. apply encryptData_encoded in H as [H _].
  destruct H as [vec c0 text c1 b1 c2 b2 m tag Hd Hc Hr Hc0 Hs Hu Hf Hm Ht].
  destruct (encoded_iv rng opts vec Hc Hr) as (n & Hn & Hpos & Hlen).
  destruct (encoded_ciphertext payload text c0 c1 c2 b1 b2 Hs Hu Hf)
    as ((t & -> & Hne) & Hct).
  pose proof (tag_nonempty _ _ Ht) as Htag.
  assert (Hvec : vec <> []) by (intros ->; cbn in Hlen; lia).
  destruct (decipher_inverts _ _ _ _ _ _ _ _ _ _ Hc0 Hu Hf Ht)
    as (d0 & d1 & d2 & s1 & d3 & s2 & Hd0 & Hhas & Hset & Hdu & Hdf & Hpt).
  destruct (complete_object opts Hc) as [Hu' Hn'].
  rewrite decryptData_nonempty by apply compileEncryptString_not_empty.
  rewrite assertOptsExist_complete by exact Hc.
  rewrite bind_ret, extractComponents_compile by assumption.
  rewrite bind_ret, !(get_field opts _ Hu' Hn'), !bind_ret.
  cbn [iv auth data].
  unfold genDecipher. rewrite outcome_bind, outcome_crypto, Hd0.
  rewrite Hhas, andb_true_r.
  replace (0 <? List.length tag)%nat with true
    by (symmetry; apply Nat.ltb_lt; destruct tag; [congruence | cbn; lia]).
  rewrite outcome_bind, outcome_crypto, Hset.
  unfold decodeToUtf8.
  rewrite !outcome_bind, outcome_crypto, Hdu.
  rewrite !outcome_bind, outcome_crypto, Hdf.
  cbn [outcome ret snd]. rewrite Hpt.
  unfold decodeToJson. rewrite (Hjson t Hs).
  rewrite (parsed_nothing_object payload Hd). reflexivity.
Qed.

End RoundTrip.

(* ===================================================================== *)
(** * The platform [Ref] meets the laws *)
(* ===================================================================== *)

Lemma xor_byte_cancel (k x : byte) : Ref.xor_byte k (Ref.xor_byte k x) = x.
Proof.
  unfold Ref.xor_byte.
  destruct (Byte.to_bits k) as (k0 & k1 & k2 & k3 & k4 & k5 & k6 & k7) eqn:Hk.
  destruct (Byte.to_bits x) as (x0 & x1 & x2 & x3 & x4 & x5 & x6 & x7) eqn:Hx.
  rewrite Byte.to_bits_of_bits.
  rewrite <- !xorb_assoc, !xorb_nilpotent, !xorb_false_l.
  rewrite <- Hx. apply Byte.of_bits_to_bits.
Qed.

Lemma map_xor_cancel (k : byte) (b : bytes) :
  map (Ref.xor_byte k) (map (Ref.xor_byte k) b) = b.
Proof.
  induction b as [|x b IH]; [reflexivity|].
  cbn [map]. rewrite xor_byte_cancel, IH. reflexivity.
Qed.

Lemma bytes_eqb_refl (b : bytes) : Ref.bytes_eqb b b = true.
Proof.
  induction b as [|x b IH]; [reflexivity|].
  cbn [Ref.bytes_eqb]. rewrite IH, (Byte.byte_dec_lb (eq_refl x)). reflexivity.
Qed.

Lemma list_byte_of_string_not_empty (s : string) :
  s <> EmptyString -> list_byte_of_string s <> [].
Proof. destruct s; [congruence | discriminate]. Qed.

Lemma print_not_empty (v : value) (t : string) :
  Ref.print v = Some t -> t <> EmptyString.
Proof.
  destruct v as [| |[]|n| |s|l|o]; cbn; intros H; try discriminate;
    try (injection H as <-; discriminate).
  injection H as <-. unfold Ref.print_num.
  destruct (n <? 0)%Z; [discriminate|].
  cbn [String.append].
  destruct (N.size_nat (Z.to_N (Z.abs n))); cbn [Ref.digits]; [discriminate|].
  destruct (Z.to_N (Z.abs n) <? 10)%N; [discriminate|].
  destruct (Ref.digits _ _); discriminate.
Qed.

Lemma ref_platform_laws : PlatformLaws Ref.platform.
Proof.
  constructor.
  - intros rng len b. cbn. unfold Ref.ref_randomBytes.
    destruct len as [| |x|n| |s|l|o]; try discriminate.
    destruct (Z.leb_spec 0 n) as [Hpos|_]; cbn [andb]; [|discriminate].
    destruct (n <=? 2147483647)%Z; [|discriminate].
    intros H. injection H as <-. exists n.
    rewrite length_map, length_seq. auto.
  - intros v w. cbn. unfold Ref.ref_stringify.
    destruct (Ref.print v) as [t|] eqn:Hp; intros H; injection H as <-; [|auto].
    right. exists t. split; [reflexivity|]. exact (print_not_empty v t Hp).
  - intros c. cbn. eexists. reflexivity.
  - intros c s c1 b1 c2 b2. cbn. unfold Ref.ref_update, Ref.ref_final.
    intros H1 H2 Hs. injection H1 as <- <-. injection H2 as <- <-.
    rewrite app_nil_r. intros H. apply map_eq_nil in H.
    now apply list_byte_of_string_not_empty in H.
Qed.

Lemma ref_platform_aead : AeadLaws Ref.platform.
Proof.
  constructor.
  - intros c t. cbn. unfold Ref.ref_getAuthTag, Ref.ref_tag.
    destruct (Ref.ctagged c); intros H; [injection H as <-|]; discriminate.
  - intros method secret iv c0 s c1 b1 c2 b2 t. cbn.
    unfold Ref.ref_createCipheriv, Ref.ref_createDecipheriv, Ref.ref_update,
      Ref.ref_final, Ref.ref_getAuthTag.
    destruct (Ref.ref_key method secret iv) as [[k tagged]|]; [|discriminate].
    intros H0 H1 H2 H3.
    injection H0 as <-. cbn in H1. injection H1 as <- <-.
    injection H2 as <- <-. cbn in H3.
    destruct tagged; [|discriminate]. injection H3 as <-.
    unfold Ref.ref_setAuthTag, Ref.ref_dupdate, Ref.ref_dfinal.
    do 6 eexists.
    split; [reflexivity|]. split; [reflexivity|].
    split; [reflexivity|]. split; [reflexivity|].
    cbn [Ref.dkey Ref.dtagged Ref.dseen Ref.dtag app].
    rewrite app_nil_r, map_xor_cancel, bytes_eqb_refl.
    split; [reflexivity|].
    rewrite string_app_empty. apply string_of_list_byte_of_string.
Qed.

(* ===================================================================== *)
(** * The module at work on [Ref] *)
(* ===================================================================== *)

(** C2, as the code has it: [getCipherAuthTag] asks the cipher for its
    tag whatever the method, because each of its tests compares a number
    with [false]; so it does for [aes-256-cbc], whose name holds none of
    [gcm], [ccm], [ocb], and the zero-length buffer is never returned.
    On [Ref], where a method without a tag refuses [getAuthTag],
    [encryptData] fails there. *)
Theorem auth_tag_asked_of_every_method :
  (forall (P : Platform) (c : Cipher) (method : string),
      getCipherAuthTag c (Str method) = crypto GetAuthTag (cipher_getAuthTag c))
  /\ includes (lowercase "aes-256-cbc") "gcm" = false
  /\ includes (lowercase "aes-256-cbc") "ccm" = false
  /\ includes (lowercase "aes-256-cbc") "ocb" = false
  /\ indexOf (lowercase "aes-256-cbc") "gcm" = (-1)%Z
  /\ indexOf (lowercase "aes-256-cbc") "ccm" = (-1)%Z
  /\ indexOf (lowercase "aes-256-cbc") "ocb" = (-1)%Z
  /\ encryptData (P := Ref.platform) 0 session opts_cbc
     = (encode_calls, Throw Ref.err_state).
Proof.
  split; [intros P c method; apply getCipherAuthTag_Str|].
  repeat split; vm_compute; reflexivity.
Qed.

(** C8 on a string payload. *)
Lemma invalid_payload_string :
  is_primitive (Str "a string") = true
  /\ encryptData (P := Ref.platform) 0 (Str "a string") opts_gcm = throw err_payload
  /\ decryptData (P := Ref.platform) (Str "") opts_gcm = throw err_input.
Proof.
  split; [reflexivity|].
  destruct (invalid_payload_and_input_rejected (P := Ref.platform)
              0 (Str "a string") opts_gcm eq_refl) as (H1 & _ & _ & H4 & _).
  split; assumption.
Defined.

(** C7 on a configuration without [secret]. *)
Lemma incomplete_config_no_secret :
  opts_no_secret <> Null /\ complete opts_no_secret = false
  /\ encryptData (P := Ref.platform) 0 session opts_no_secret = throw err_opts
  /\ decryptData (P := Ref.platform) (Str session_cookie) opts_no_secret = throw err_opts.
Proof.
  assert (Hn : opts_no_secret <> Null) by discriminate.
  split; [exact Hn|]. split; [reflexivity|].
  destruct (incomplete_config_rejected (P := Ref.platform)
              0 session opts_no_secret session_cookie Hn eq_refl)
    as (H1 & _ & H3 & _).
  split; [apply H1; reflexivity | apply H3; discriminate].
Defined.

(** C7 fails here: with no configuration at all, a [null] payload is
    refused as a payload and an empty text as an input, not for the
    configuration. *)
Lemma invalid_payload_before_config :
  encryptData (P := Ref.platform) 0 Null Undefined = throw err_payload
  /\ err_payload <> err_opts
  /\ decryptData (P := Ref.platform) (Str "") Undefined = throw err_input
  /\ err_input <> err_opts.
Proof. repeat split; discriminate. Qed.

(** C6 on [session]: the cookie is within the ceiling and is returned. *)
Lemma size_ceiling_session :
  encText_of (P := Ref.platform) 0 session opts_gcm = (encode_calls, Ok session_cookie)
  /\ encryptData (P := Ref.platform) 0 session opts_gcm = (encode_calls, Ok session_cookie).
Proof.
  assert (E : encText_of (P := Ref.platform) 0 session opts_gcm
              = (encode_calls, Ok session_cookie)) by (vm_compute; reflexivity).
  split; [exact E|].
  destruct (size_ceiling (P := Ref.platform) 0 session opts_gcm _ _ E) as (_ & _ & H & _).
  apply H. vm_compute. discriminate.
Defined.

(** C1 fails here.  [long_session] and [opts_gcm] are accepted, and the
    result would be longer than a cookie may be: [encryptData] throws
    and there is nothing to decode.  [sparse_session] is accepted and
    encoded, and what is decoded is another object: its property whose
    value is [undefined] is not part of its JSON text. *)
Lemma accepted_pairs_not_round_tripped :
  (is_primitive long_session = false
   /\ complete opts_gcm = true
   /\ outcome (encryptData (P := Ref.platform) 0 long_session opts_gcm) = Throw err_size
   /\ ~ (exists s,
          outcome (encryptData (P := Ref.platform) 0 long_session opts_gcm) = Ok s
          /\ outcome (decryptData (P := Ref.platform) (Str s) opts_gcm)
             = Ok long_session))
  /\ (is_primitive sparse_session = false
      /\ outcome (s <- encryptData (P := Ref.platform) 0 sparse_session opts_gcm ;;
                  decryptData (P := Ref.platform) (Str s) opts_gcm)
         = Ok (Obj [])
      /\ Obj [] <> sparse_session).
Proof.
  assert (E : outcome (encryptData (P := Ref.platform) 0 long_session opts_gcm)
              = Throw err_size) by (vm_compute; reflexivity).
  split.
  - split; [reflexivity|]. split; [reflexivity|]. split; [exact E|].
    intros (s & Hs & _). rewrite E in Hs. discriminate Hs.
  - split; [reflexivity|]. split; [vm_compute; reflexivity | discriminate].
Qed.

(** C1 on [session]. *)
Lemma decrypt_encrypt_session :
  outcome (encryptData (P := Ref.platform) 0 session opts_gcm) = Ok session_cookie
  /\ (forall text, JSON_stringify (Platform := Ref.platform) session = Ok (Str text) ->
                   JSON_parse (Platform := Ref.platform) text = Ok session)
  /\ outcome (decryptData (P := Ref.platform) (Str session_cookie) opts_gcm) = Ok session.
Proof.
  assert (E : outcome (encryptData (P := Ref.platform) 0 session opts_gcm)
              = Ok session_cookie) by (vm_compute; reflexivity).
  assert (J : forall text,
             JSON_stringify (Platform := Ref.platform) session = Ok (Str text) ->
             JSON_parse (Platform := Ref.platform) text = Ok session).
  { intros text H. vm_compute in H. injection H as <-. vm_compute. reflexivity. }
  split; [exact E|]. split; [exact J|].
  exact (decrypt_encrypt (L := ref_platform_laws) (A := ref_platform_aead)
           0 session opts_gcm session_cookie E J).
Defined.

(** C10 on [session]. *)
Lemma encoded_cookie_shape_session :
  outcome (encryptData (P := Ref.platform) 0 session opts_gcm) = Ok session_cookie
  /\ count_unit dot (frame_text session_cookie) = 2
  /\ List.length (split dot (frame_text session_cookie)) = 3.
Proof.
  assert (E : outcome (encryptData (P := Ref.platform) 0 session opts_gcm)
              = Ok session_cookie) by (vm_compute; reflexivity).
  split; [exact E|].
  destruct (encoded_cookie_shape (L := ref_platform_laws) 0 session opts_gcm
              session_cookie E) as (H2 & iv & tag & ct & Hs & _).
  split; [exact H2|]. rewrite Hs. reflexivity.
Defined.

(* ===================================================================== *)
(** * Further properties of the wire format *)
(* ===================================================================== *)

(** X1.  What [extractComponents] makes of a cookie [compileEncryptString]
    built: the three buffers when none of them is empty, and the
    [RangeError] as soon as one is. *)
Theorem split_join_frame (iv tag ct : bytes) :
  (iv <> [] -> tag <> [] -> ct <> [] ->
   extractComponents (Str (compileEncryptString iv tag ct))
   = ret {| iv := iv; auth := tag; data := ct |})
  /\ (iv = [] \/ tag = [] \/ ct = [] ->
      extractComponents (Str (compileEncryptString iv tag ct)) = throw err_frame_count).
Proof.
  split.
  - apply extractComponents_compile.
  - intros H.
    assert (Hm : malformed_frame (frame_text (compileEncryptString iv tag ct))).
    { right; right. rewrite frame_text_compile, split_join_hex.
      destruct H as [->|[->| ->]];
        [exists 0 | exists 1 | exists 2]; split; try lia; reflexivity. }
    rewrite (extractComponents_malformed _ Hm).
    rewrite includes_dot_count, frame_text_compile, count_join_hex. reflexivity.
Qed.

(** X2.  Components after the third are ignored: whatever follows a further
    delimiter, the frame is that of the first three components. *)
Theorem trailing_components_ignored (iv tag ct : bytes) (rest : string) :
  iv <> [] -> tag <> [] -> ct <> [] ->
  extractComponents
    (Str (base64_encode (utf8_bytes
       (join "." [hex_encode iv; hex_encode tag; hex_encode ct; rest]))))
  = ret {| iv := iv; auth := tag; data := ct |}.
Proof.
  intros Hiv Htag Hct.
  set (text := join "." [hex_encode iv; hex_encode tag; hex_encode ct; rest]).
  assert (Hf : frame_text (base64_encode (utf8_bytes text)) = units text).
  { unfold frame_text. rewrite base64_decode_encode. apply utf8_toString_bytes. }
  assert (Hs : exists t, split dot (units text)
                         = units (hex_encode iv) :: units (hex_encode tag)
                           :: units (hex_encode ct) :: t).
  { unfold text. rewrite !units_join_hex by discriminate.
    rewrite !split_app_sep by apply hex_encode_no_dot. eauto. }
  destruct Hs as [t Hs].
  rewrite extractComponents_well_formed; rewrite Hf.
  - rewrite Hs. cbn [nth]. rewrite !hex_decode_encode. reflexivity.
  - unfold malformed_frame. rewrite includes_dot_count, Hs.
    pose proof (split_length dot (units text)) as Hl.
    rewrite Hs in Hl. cbn [List.length] in Hl.
    intros [H|[H|(i & Hi & H)]].
    + destruct (count_unit dot (units text)); [lia | discriminate].
    + cbn [List.length] in H. lia.
    + destruct i as [|[|[|i]]]; cbn [nth] in H; [| | |lia];
        apply units_empty, hex_encode_empty in H; contradiction.
Qed.

Lemma string_length_app (a b : string) :
  String.length (a ++ b) = String.length a + String.length b.
Proof. induction a; cbn [String.append String.length]; lia. Qed.

Lemma base64_encode_length_upto (n : nat) (b : bytes) :
  List.length b <= n ->
  String.length (base64_encode b) = 4 * ((List.length b + 2) / 3).
Proof.
  revert b. induction n as [|n IH]; intros b Hn.
  - destruct b; [reflexivity | cbn in Hn; lia].
  - destruct b as [|x [|y [|z b]]]; try reflexivity.
    + cbn [base64_encode]. destruct (b64_group3 x x00 x00) as [[[d1 d2] d3] d4].
      reflexivity.
    + cbn [base64_encode]. destruct (b64_group3 x y x00) as [[[d1 d2] d3] d4].
      reflexivity.
    + cbn [base64_encode]. destruct (b64_group3 x y z) as [[[d1 d2] d3] d4].
      cbn [String.length List.length]. rewrite IH by (cbn in Hn; lia).
      replace (S (S (S (List.length b))) + 2) with ((List.length b + 2) + 1 * 3) by lia.
      rewrite Nat.div_add by lia. lia.
Qed.

Lemma base64_encode_length (b : bytes) :
  String.length (base64_encode b) = 4 * ((List.length b + 2) / 3).
Proof. apply (base64_encode_length_upto (List.length b)). lia. Qed.

(** The byte length of a cookie, from the sizes of its three buffers:
    two hex digits per octet and two delimiters, in base64 groups of
    four characters per three octets. *)
Lemma compileEncryptString_length (iv tag ct : bytes) :
  List.length (utf8_bytes (compileEncryptString iv tag ct))
  = 4 * ((2 * (List.length iv + List.length tag + List.length ct) + 4) / 3).
Proof.
  rewrite utf8_bytes_length by apply ascii_base64_encode.
  unfold compileEncryptString.
  rewrite base64_encode_length, utf8_bytes_length by apply ascii_join_hex.
  unfold join. cbn [String.concat].
  rewrite !string_length_app, !hex_encode_length. cbn [String.length].
  f_equal. f_equal. lia.
Qed.

Lemma cookie_fits (n : nat) :
  (Z.of_nat (4 * ((2 * n + 4) / 3)) >? ENC_MAX_LEN)%Z = negb (n <=? 1533)%nat.
Proof.
  unfold ENC_MAX_LEN.
  pose proof (Nat.div_mod_eq (2 * n + 4) 3) as E.
  pose proof (Nat.mod_upper_bound (2 * n + 4) 3) as B.
  destruct (Z.gtb_spec (Z.of_nat (4 * ((2 * n + 4) / 3))) 4093);
    destruct (Nat.leb_spec n 1533); cbn [negb]; try reflexivity; lia.
Qed.

Section Capacity.

Context {P : Platform}.

(** X3.  A cookie fits under the ceiling exactly when the vector, the tag and
    the ciphertext total at most 1533 octets: once the cookie is built,
    [encryptData] returns it in that case and throws the size error
    otherwise. *)
Theorem cookie_capacity (rng : Entropy) (data opts : value) (t : list call)
    (iv tag ct : bytes) :
  encText_of rng data opts = (t, Ok (compileEncryptString iv tag ct)) ->
  encryptData rng data opts
  = (t, if (List.length iv + List.length tag + List.length ct <=? 1533)%nat
        then Ok (compileEncryptString iv tag ct)
        else Throw err_size).
Proof.
  intros H. rewrite (encryptData_of_encText _ _ _ _ _ H).
  rewrite compileEncryptString_length, cookie_fits.
  destruct (List.length iv + List.length tag + List.length ct <=? 1533)%nat;
    reflexivity.
Qed.

End Capacity.

(* ===================================================================== *)
(** * Order of the calls to [crypto] *)
(* ===================================================================== *)

Lemma assertOptsExist_calls (opts : value) : calls (assertOptsExist opts) = [].
Proof.
  destruct (complete opts) eqn:Hc.
  - rewrite assertOptsExist_complete by exact Hc. reflexivity.
  - destruct opts; try reflexivity;
      rewrite assertOptsExist_incomplete by (assumption || discriminate);
      reflexivity.
Qed.

Section CallOrder.

Context {P : Platform}.

Lemma getCipherAuthTag_calls (c : Cipher) (method : value) :
  (exists n, calls (getCipherAuthTag c method) = firstn n [GetAuthTag])
  /\ (forall t, outcome (getCipherAuthTag c method) = Ok t ->
                calls (getCipherAuthTag c method) = [GetAuthTag]).
Proof.
  destruct method; try (split; [exists 0; reflexivity | discriminate]).
  rewrite getCipherAuthTag_Str. split; [exists 1; reflexivity | reflexivity].
Qed.

Lemma encryptSession_calls (c : Cipher) (data : value) :
  (exists n, calls (encryptSession c data) = firstn n [CipherUpdate; CipherFinal])
  /\ (forall r, outcome (encryptSession c data) = Ok r ->
                calls (encryptSession c data) = [CipherUpdate; CipherFinal]).
Proof.
  unfold encryptSession, lift, crypto.
  destruct (JSON_stringify data) as [text|e]; cbn [bind];
    [|split; [exists 0; reflexivity | discriminate]].
  destruct (cipher_update c text) as [[c1 b1]|e]; cbn [bind];
    [|split; [exists 1; reflexivity | discriminate]].
  destruct (cipher_final c1) as [[c2 b2]|e]; cbn [bind ret app];
    [|split; [exists 2; reflexivity | discriminate]].
  split; [exists 2; reflexivity | reflexivity].
Qed.

(** X4.  The encoder calls [crypto] in one order: [randomBytes],
    [createCipheriv], [update], [final], [getAuthTag]; a run that fails
    stops somewhere along that list, and a run that returns has made all
    five calls.  The tag is asked for only after the cipher is
    finalized. *)
Theorem encoder_call_order (rng : Entropy) (data opts : value) :
  (exists n, calls (encryptData rng data opts) = firstn n encode_calls)
  /\ (forall s, outcome (encryptData rng data opts) = Ok s ->
                calls (encryptData rng data opts) = encode_calls).
Proof.
  assert (Hsize : forall t (r : result string),
             calls (bind (A := string) (t, r) (fun encText =>
                      len <- byteLength (Str encText) ;;
                      if (len >? ENC_MAX_LEN)%Z then throw err_size else ret encText))
             = t).
  { intros t [x|e]; [|reflexivity]. cbn [bind byteLength ret].
    destruct (_ >? _)%Z; cbn; apply app_nil_r. }
  rewrite encryptData_split.
  destruct (encText_of rng data opts) as [t r] eqn:E. rewrite Hsize.
  assert (Hr : forall s,
             outcome (bind (A := string) (t, r) (fun encText =>
                      len <- byteLength (Str encText) ;;
                      if (len >? ENC_MAX_LEN)%Z then throw err_size else ret encText))
             = Ok s -> exists x, r = Ok x).
  { intros s. destruct r as [x|e]; [eauto | discriminate]. }
  cut ((exists n, t = firstn n encode_calls)
       /\ (forall x, r = Ok x -> t = encode_calls)).
  { intros [H1 H2]. split; [exact H1|].
    intros s Hs. destruct (Hr s Hs) as [x Hx]. eauto. }
  clear Hsize Hr. revert E. unfold encText_of.
  destruct (is_primitive data).
  { intros E. injection E as <- <-. split; [exists 0; reflexivity | discriminate]. }
  destruct (complete opts) eqn:Hc.
  2:{ destruct (assertOptsExist opts) as [t0 [b|e]] eqn:Ea.
      - apply (f_equal outcome) in Ea. apply assertOptsExist_ok in Ea as [Ea _].
        congruence.
      - pose proof (assertOptsExist_calls opts) as Hcalls. rewrite Ea in Hcalls.
        cbn in Hcalls. subst t0. cbn [bind]. intros E. injection E as <- <-.
        split; [exists 0; reflexivity | discriminate]. }
  destruct (complete_object opts Hc) as [Hu Hn].
  rewrite assertOptsExist_complete by exact Hc.
  rewrite !bind_ret, !(get_field opts _ Hu Hn), !bind_ret.
  unfold genIv, genCipher, crypto.
  destruct (randomBytes rng (field opts "ivlen")) as [iv|e]; cbn [bind];
    [|intros E; injection E as <- <-; split; [exists 1; reflexivity | discriminate]].
  rewrite !bind_ret.
  destruct (createCipheriv (field opts "algo") (field opts "secret") iv) as [c0|e];
    cbn [bind];
    [|intros E; injection E as <- <-; split; [exists 2; reflexivity | discriminate]].
  destruct (encryptSession_calls c0 data) as [[n1 Hn1] Hs1].
  destruct (encryptSession c0 data) as [t1 [[c2 ct]|e]]; cbn [bind calls fst] in *.
  2:{ intros E. injection E as <- <-. split; [|discriminate].
      destruct n1 as [|[|[|n1]]]; cbn in Hn1; subst t1;
        [exists 2 | exists 3 | exists 4 | exists 4]; reflexivity. }
  rewrite (Hs1 _ eq_refl), bind_ret.
  destruct (getCipherAuthTag_calls c2 (field opts "algo")) as [[n2 Hn2] Hs2].
  destruct (getCipherAuthTag c2 (field opts "algo")) as [t2 [tag|e]];
    cbn [bind calls fst ret app] in *.
  - rewrite (Hs2 _ eq_refl). intros E. injection E as <- <-.
    split; [exists 5; reflexivity | reflexivity].
  - intros E. injection E as <- <-. split; [|discriminate].
    destruct n2 as [|[|n2]]; cbn in Hn2; subst t2;
      [exists 4 | exists 5 | exists 5]; reflexivity.
Qed.









End CallOrder.

(* ===================================================================== *)
(** * The further properties on concrete frames *)
(* ===================================================================== *)

(** X2 on a frame followed by a fourth and a fifth component. *)
Lemma trailing_components_ignored_junk :
  frame_text "MDAwMS5hYS5jMGZmZWUuanVuay5tb3Jl" = units "0001.aa.c0ffee.junk.more"
  /\ extractComponents (Str "MDAwMS5hYS5jMGZmZWUuanVuay5tb3Jl")
     = ret {| iv := [x00; x01]; auth := [xaa]; data := [xc0; xff; xee] |}.
Proof.
  split; [reflexivity|].
  apply (trailing_components_ignored [x00; x01] [xaa] [xc0; xff; xee] "junk.more");
    discriminate.
Defined.

(** X3 on the cookie of [session]: 12 + 2 + 41 octets, well under 1533. *)
Lemma cookie_capacity_session :
  encText_of (P := Ref.platform) 0 session opts_gcm
  = (encode_calls,
     Ok (compileEncryptString
           (hex_decode (units "0b30557a9fc4e90e33587da2")) (hex_decode (units "3b6c"))
           (hex_decode (units session_ciphertext_hex))))
  /\ encryptData (P := Ref.platform) 0 session opts_gcm
     = (encode_calls, Ok session_cookie).
Proof.
  assert (E : encText_of (P := Ref.platform) 0 session opts_gcm
              = (encode_calls,
                 Ok (compileEncryptString
                       (hex_decode (units "0b30557a9fc4e90e33587da2"))
                       (hex_decode (units "3b6c"))
                       (hex_decode (units session_ciphertext_hex)))))
    by (vm_compute; reflexivity).
  split; [exact E|].
  rewrite (cookie_capacity (P := Ref.platform) 0 session opts_gcm _ _ _ _ E).
  vm_compute. reflexivity.
Defined.

(* ===================================================================== *)
(** * The configuration guard *)
(* ===================================================================== *)

Section Config.

Context {P : Platform}.

(** X6.  [assertOptsExist] in full: it returns exactly on a complete
    configuration; it throws the module's configuration [Error] on
    [undefined] and on every other value but [null] that lacks a truthy
    [algo], [ivlen] or [secret] (a number, a string, an array among
    them); and on [null], which its comparison with [undefined] lets
    through, reading [opts.algo] throws the [TypeError] of the runtime,
    which is then what [encryptData] throws for an object payload and
    [decryptData] for a non-empty text. *)
Theorem config_guard (opts : value) :
  (assertOptsExist opts = ret true <-> complete opts = true)
  /\ (assertOptsExist opts = throw err_opts <-> opts <> Null /\ complete opts = false)
  /\ (assertOptsExist opts = throw err_null_property <-> opts = Null)
  /\ (forall rng data, is_primitive data = false ->
                       encryptData rng data Null = throw err_null_property)
  /\ (forall s, s <> EmptyString ->
                decryptData (Str s) Null = throw err_null_property)
  /\ cls err_null_property = TypeError /\ cls err_opts = Error.
Proof.
  split; [|split; [|split; [|split; [|split]]]].
  - split; [|apply assertOptsExist_complete].
    intros H. apply (f_equal outcome) in H.
    now apply assertOptsExist_ok in H.
  - split.
    + intros H. destruct opts; try (split; [discriminate | reflexivity]).
      split; [discriminate|]. destruct (complete (Obj props)) eqn:Hc; [|reflexivity].
      rewrite assertOptsExist_complete in H by exact Hc. discriminate H.
    + intros [Hn Hc]. now apply assertOptsExist_incomplete.
  - split; [|intros ->; reflexivity].
    intros H. destruct opts; try reflexivity; exfalso.
    all: try (cbv in H; discriminate H).
    destruct (complete (Obj props)) eqn:Hc.
    + rewrite assertOptsExist_complete in H by exact Hc. discriminate H.
    + rewrite assertOptsExist_incomplete in H by (discriminate || exact Hc).
      discriminate H.
  - intros rng data Hd. unfold encryptData. rewrite Hd. reflexivity.
  - intros s Hs. rewrite decryptData_nonempty by exact Hs. reflexivity.
  - split; reflexivity.
Qed.

Lemma decryptData_not_text (text opts1 opts2 : value) :
  (forall s, text = Str s -> s = EmptyString) ->
  decryptData text opts1 = decryptData text opts2.
Proof.
  intros H. destruct text as [| |b|n| |s|l|o]; try reflexivity.
  rewrite (H s eq_refl). reflexivity.
Qed.

(** X13.  Of a complete configuration the module reads [algo], [ivlen]
    and [secret] and nothing else, and [decryptData] does not read
    [ivlen] beyond requiring it: two complete configurations with the
    same [algo] and [secret] decode every text alike, whatever their
    [ivlen], their other properties and the order of their properties;
    if their [ivlen] agree too, a run of [encryptData] is the same under
    the one and under the other, for each payload and each state of the
    entropy source the run finds. *)
Theorem config_fields_read (opts1 opts2 : value) :
  complete opts1 = true -> complete opts2 = true ->
  field opts1 "algo" = field opts2 "algo" ->
  field opts1 "secret" = field opts2 "secret" ->
  (forall text, decryptData text opts1 = decryptData text opts2)
  /\ (field opts1 "ivlen" = field opts2 "ivlen" ->
      forall rng data, encryptData rng data opts1 = encryptData rng data opts2).
Proof.
  intros H1 H2 Ha Hs.
  destruct (complete_object opts1 H1) as [Hu1 Hn1].
  destruct (complete_object opts2 H2) as [Hu2 Hn2].
  split.
  - intros text.
    destruct text as [| |b|n| |s|l|o];
      try (apply decryptData_not_text; intros ? ?; discriminate).
    destruct (String.eqb_spec s "") as [->|Hne]; [reflexivity|].
    rewrite !decryptData_nonempty by exact Hne.
    rewrite !assertOptsExist_complete by assumption.
    rewrite !(get_field opts1 _ Hu1 Hn1), !(get_field opts2 _ Hu2 Hn2), Ha, Hs.
    reflexivity.
  - intros Hi rng data. unfold encryptData.
    rewrite !assertOptsExist_complete by assumption.
    rewrite !(get_field opts1 _ Hu1 Hn1), !(get_field opts2 _ Hu2 Hn2), Ha, Hs, Hi.
    reflexivity.
Qed.


End Config.

(* ===================================================================== *)
(** * The cookie as text *)
(* ===================================================================== *)

(** X7.  The wire format is unambiguous: two frames that compile to the
    same cookie have the same vector, the same tag and the same
    ciphertext. *)
Theorem cookie_injective (iv tag ct iv' tag' ct' : bytes) :
  compileEncryptString iv tag ct = compileEncryptString iv' tag' ct' <->
  iv = iv' /\ tag = tag' /\ ct = ct'.
Proof.
  split; [|intros (-> & -> & ->); reflexivity].
  intros H. apply (f_equal frame_text) in H.
  rewrite !frame_text_compile in H.
  apply (f_equal (split dot)) in H. rewrite !split_join_hex in H.
  injection H as Hi Ht Hc.
  apply (f_equal hex_decode) in Hi, Ht, Hc.
  rewrite !hex_decode_encode in Hi, Ht, Hc. auto.
Qed.

(** X8.  A cookie is plain base64 text: each of its characters is a
    letter, a digit, [+], [/] or [=]; it has at least four characters,
    and their number is a multiple of four. *)
Theorem cookie_text (iv tag ct : bytes) :
  all_chars cookie_char (compileEncryptString iv tag ct) = true
  /\ 4 <= String.length (compileEncryptString iv tag ct)
  /\ String.length (compileEncryptString iv tag ct) mod 4 = 0.
Proof.
  split; [apply (base64_encode_chars_upto _ _ (le_n _))|].
  pose proof (compileEncryptString_length iv tag ct) as H.
  rewrite utf8_bytes_length in H by apply ascii_base64_encode. rewrite H.
  set (n := List.length iv + List.length tag + List.length ct).
  pose proof (Nat.div_mod_eq (2 * n + 4) 3) as E.
  pose proof (Nat.mod_upper_bound (2 * n + 4) 3) as B.
  split; [lia|].
  rewrite Nat.mul_comm. apply Nat.Div0.mod_mul.
Qed.

(* ===================================================================== *)
(** * When the two operations return, and what they throw *)
(* ===================================================================== *)

Lemma outcome_bind_throw {A B} (m : M A) (k : A -> M B) (e : exn) :
  outcome (bind m k) = Throw e ->
  outcome m = Throw e \/ exists a, outcome m = Ok a /\ outcome (k a) = Throw e.
Proof.
  rewrite outcome_bind. destruct (outcome m) as [a|e'].
  - intros H. right. exists a. split; [reflexivity | exact H].
  - intros H. left. injection H as <-. reflexivity.
Qed.



Section Returns.

Context {P : Platform}.

Lemma encoded_encText_of (rng : Entropy) (data opts : value) (s : string) :
  encoded rng data opts s -> outcome (encText_of rng data opts) = Ok s.
Proof.
  intros [vec c0 text c1 b1 c2 b2 m tag Hd Hc Hr Hc0 Hs Hu Hf Hm Ht].
  destruct (complete_object opts Hc) as [Hu' Hn'].
  unfold encText_of. rewrite Hd, assertOptsExist_complete by exact Hc.
  rewrite !(get_field opts _ Hu' Hn'), !bind_ret.
  unfold genIv, genCipher. rewrite outcome_bind, outcome_crypto, Hr.
  rewrite !bind_ret, outcome_bind, outcome_crypto, Hc0.
  assert (Hsess : encryptSession c0 data
                  = ([CipherUpdate; CipherFinal], Ok (c2, b1 ++ b2))).
  { unfold encryptSession, lift, crypto. rewrite Hs. cbn [bind].
    rewrite Hu. cbn [bind]. rewrite Hf. reflexivity. }
  rewrite outcome_bind, Hsess. cbn [outcome snd].
  rewrite bind_ret, Hm, getCipherAuthTag_Str.
  rewrite outcome_bind, outcome_crypto, Ht. reflexivity.
Qed.

(** X10.  [encryptData] returns a string exactly when the payload is an
    object, the configuration is complete with a string for [algo],
    [randomBytes], [createCipheriv], [JSON.stringify], [update], [final]
    and [getAuthTag] each return, and the cookie built from the vector,
    the tag and the ciphertext is at most 4093 bytes long; the string is
    that cookie. *)
Theorem encrypt_returns (rng : Entropy) (data opts : value) (s : string) :
  outcome (encryptData rng data opts) = Ok s <->
  encoded rng data opts s /\ (Z.of_nat (List.length (utf8_bytes s)) <= 4093)%Z.
Proof.
  split; [apply encryptData_encoded|].
  intros [H Hlen]. apply encoded_encText_of in H.
  rewrite encryptData_split, outcome_bind, H.
  cbn [byteLength bind ret outcome snd].
  destruct (Z.gtb_spec (Z.of_nat (List.length (utf8_bytes s))) ENC_MAX_LEN) as [Hgt|_];
    [unfold ENC_MAX_LEN in Hgt; lia | reflexivity].
Qed.




End Returns.

Section Throws.

Context {P : Platform}.

Lemma assertOptsExist_throw (opts : value) (e : exn) :
  outcome (assertOptsExist opts) = Throw e ->
  (opts = Null /\ e = err_null_property)
  \/ (opts <> Null /\ complete opts = false /\ e = err_opts).
Proof.
  destruct (complete opts) eqn:Hc.
  - rewrite assertOptsExist_complete by exact Hc. discriminate.
  - destruct opts;
      try (rewrite assertOptsExist_incomplete by (discriminate || exact Hc);
           cbn; intros H; injection H as <-; right;
           repeat split; discriminate).
    cbn. intros H. injection H as <-. left. auto.
Qed.

(** The outcome of [encText_of] on an object and a complete
    configuration, call by call. *)
Lemma encText_of_outcome (rng : Entropy) (data opts : value) :
  is_primitive data = false -> complete opts = true ->
  outcome (encText_of rng data opts)
  = match randomBytes rng (field opts "ivlen") with
    | Throw e => Throw e
    | Ok iv =>
    match createCipheriv (field opts "algo") (field opts "secret") iv with
    | Throw e => Throw e
    | Ok c0 =>
    match JSON_stringify data with
    | Throw e => Throw e
    | Ok text =>
    match cipher_update c0 text with
    | Throw e => Throw e
    | Ok (c1, b1) =>
    match cipher_final c1 with
    | Throw e => Throw e
    | Ok (c2, b2) =>
    match field opts "algo" with
    | Str _ =>
        match cipher_getAuthTag c2 with
        | Throw e => Throw e
        | Ok tag => Ok (compileEncryptString iv tag (b1 ++ b2))
        end
    | _ => Throw err_not_a_function
    end end end end end end.
Proof.
  intros Hd Hc. destruct (complete_object opts Hc) as [Hu Hn].
  unfold encText_of. rewrite Hd, assertOptsExist_complete by exact Hc.
  rewrite !(get_field opts _ Hu Hn), !bind_ret.
  unfold genIv, genCipher. rewrite outcome_bind, outcome_crypto.
  destruct (randomBytes rng (field opts "ivlen")) as [iv|e]; [|reflexivity].
  rewrite !bind_ret, outcome_bind, outcome_crypto.
  destruct (createCipheriv (field opts "algo") (field opts "secret") iv) as [c0|e];
    [|reflexivity].
  unfold encryptSession, lift, crypto.
  destruct (JSON_stringify data) as [text|e]; [|reflexivity].
  cbn [bind app].
  destruct (cipher_update c0 text) as [[c1 b1]|e]; [|reflexivity].
  cbn [bind app].
  destruct (cipher_final c1) as [[c2 b2]|e]; [|reflexivity].
  cbn [bind app ret].
  destruct (field opts "algo") as [| |x|n| |m|l|o]; try reflexivity.
  rewrite getCipherAuthTag_Str. unfold crypto.
  destruct (cipher_getAuthTag c2) as [tag|e]; reflexivity.
Qed.

(** [encryptData] throws what [encText_of] throws. *)
Lemma encryptData_throw_encText (rng : Entropy) (data opts : value) (e : exn) :
  outcome (encText_of rng data opts) = Throw e ->
  outcome (encryptData rng data opts) = Throw e.
Proof.
  intros H. rewrite encryptData_split, outcome_bind, H. reflexivity.
Qed.

(** X11.  [encryptData] throws an error exactly in the cases
    [encode_fails] lists.  A check of the module or of the runtime
    fails with its own error: the payload is a primitive, the
    configuration is [null] or incomplete, [algo] is no string when the
    tag is asked for, the cookie is longer than 4093 bytes.  Otherwise a
    call of the run, on the arguments the run gave it, threw:
    [randomBytes] on [ivlen], [createCipheriv] on [algo], [secret] and
    the vector, [JSON.stringify] on the payload, [update] on its text,
    [final], or [getAuthTag]; and the error of the run is the one that
    call threw, unchanged. *)
Theorem encrypt_throws (rng : Entropy) (data opts : value) (e : exn) :
  outcome (encryptData rng data opts) = Throw e <-> encode_fails rng data opts e.
Proof.
  split.
  - intros H. rewrite encryptData_split in H.
    apply outcome_bind_throw in H as [H|(s & Hs & H)].
    2:{ cbn [byteLength bind ret outcome snd] in H.
        destruct (Z.gtb_spec (Z.of_nat (List.length (utf8_bytes s))) ENC_MAX_LEN)
          as [Hgt|_]; [|discriminate H].
        cbn in H. injection H as <-.
        apply (fails_size rng data opts s);
          [now apply encText_of_encoded | unfold ENC_MAX_LEN in Hgt; lia]. }
    destruct (is_primitive data) eqn:Hd.
    { unfold encText_of in H. rewrite Hd in H. cbn in H. injection H as <-.
      now apply fails_payload. }
    destruct (complete opts) eqn:Hc.
    2:{ unfold encText_of in H. rewrite Hd in H.
        apply outcome_bind_throw in H as [H|(b & Hb & H)].
        - apply assertOptsExist_throw in H as [[-> ->]|(Hn & _ & ->)].
          + now apply fails_encode_null.
          + now apply fails_encode_opts.
        - apply assertOptsExist_ok in Hb as (Hc' & _). congruence. }
    rewrite (encText_of_outcome rng data opts Hd Hc) in H.
    destruct (randomBytes rng (field opts "ivlen")) as [iv|e0] eqn:Hr.
    2:{ injection H as <-. now apply fails_randomBytes. }
    destruct (createCipheriv (field opts "algo") (field opts "secret") iv)
      as [c0|e0] eqn:Hc0.
    2:{ injection H as <-. now apply (fails_createCipheriv rng data opts iv). }
    assert (Hk : keyed rng data opts iv c0) by (repeat split; assumption).
    destruct (JSON_stringify data) as [text|e0] eqn:Hs.
    2:{ injection H as <-. now apply (fails_stringify rng data opts iv c0). }
    destruct (cipher_update c0 text) as [[c1 b1]|e0] eqn:Hu.
    2:{ injection H as <-. now apply (fails_cipher_update rng data opts iv c0 text). }
    destruct (cipher_final c1) as [[c2 b2]|e0] eqn:Hf.
    2:{ injection H as <-.
        now apply (fails_cipher_final rng data opts iv c0 text c1 b1). }
    destruct (field opts "algo") as [| |x|n| |m|l|o] eqn:Hm;
      try (injection H as <-;
           apply (fails_method rng data opts iv c0 text c1 b1 c2 b2);
           [assumption .. | intros m'; rewrite Hm; discriminate]).
    destruct (cipher_getAuthTag c2) as [tag|e0] eqn:Ht; [discriminate H|].
    injection H as <-.
    now apply (fails_getAuthTag rng data opts iv c0 text c1 b1 c2 b2 m).
  - intros H.
    destruct H as [Hd|Hd ->|Hd Hn Hc|e Hd Hc Hr|iv e Hd Hc Hr Hc0
                  |iv c0 e (Hd & Hc & Hr & Hc0) Hs
                  |iv c0 text e (Hd & Hc & Hr & Hc0) Hs Hu
                  |iv c0 text c1 b1 e (Hd & Hc & Hr & Hc0) Hs Hu Hf
                  |iv c0 text c1 b1 c2 b2 (Hd & Hc & Hr & Hc0) Hs Hu Hf Hm
                  |iv c0 text c1 b1 c2 b2 m e (Hd & Hc & Hr & Hc0) Hs Hu Hf Hm Ht
                  |s He Hlen].
    + rewrite encryptData_primitive by exact Hd. reflexivity.
    + unfold encryptData. rewrite Hd. reflexivity.
    + rewrite encryptData_incomplete by assumption. reflexivity.
    + apply encryptData_throw_encText.
      rewrite encText_of_outcome, Hr by assumption. reflexivity.
    + apply encryptData_throw_encText.
      rewrite encText_of_outcome, Hr, Hc0 by assumption. reflexivity.
    + apply encryptData_throw_encText.
      rewrite encText_of_outcome, Hr, Hc0, Hs by assumption. reflexivity.
    + apply encryptData_throw_encText.
      rewrite encText_of_outcome, Hr, Hc0, Hs, Hu by assumption. reflexivity.
    + apply encryptData_throw_encText.
      rewrite encText_of_outcome, Hr, Hc0, Hs, Hu, Hf by assumption. reflexivity.
    + apply encryptData_throw_encText.
      rewrite encText_of_outcome, Hr, Hc0, Hs, Hu, Hf by assumption.
      destruct (field opts "algo") as [| |x|n| |m|l|o]; try reflexivity.
      now contradiction (Hm m).
    + apply encryptData_throw_encText.
      rewrite encText_of_outcome, Hr, Hc0, Hs, Hu, Hf, Hm, Ht by assumption.
      reflexivity.
    + apply encoded_encText_of in He.
      rewrite encryptData_split, outcome_bind, He.
      cbn [byteLength bind ret outcome snd].
      destruct (Z.gtb_spec (Z.of_nat (List.length (utf8_bytes s))) ENC_MAX_LEN)
        as [_|Hle]; [reflexivity | unfold ENC_MAX_LEN in Hle; lia].
Qed.



End Throws.

Section TagInstalled.

Context {P : Platform}.



End TagInstalled.

(* ===================================================================== *)
(** * These properties on [Ref] *)
(* ===================================================================== *)

(** X13 on [opts_gcm] and [opts_gcm_other]: the cookie made under the
    first is decoded under the second. *)
Lemma config_fields_read_gcm :
  complete opts_gcm = true /\ complete opts_gcm_other = true
  /\ field opts_gcm "algo" = field opts_gcm_other "algo"
  /\ field opts_gcm "secret" = field opts_gcm_other "secret"
  /\ field opts_gcm "ivlen" <> field opts_gcm_other "ivlen"
  /\ outcome (decryptData (P := Ref.platform) (Str session_cookie) opts_gcm_other)
     = Ok session.
Proof.
  repeat (split; [first [reflexivity | discriminate]|]).
  destruct (config_fields_read (P := Ref.platform) opts_gcm opts_gcm_other
              eq_refl eq_refl eq_refl eq_refl) as [H _].
  rewrite <- H. vm_compute. reflexivity.
Defined.

(** X11 on [opts_cbc]: the error of [getAuthTag] is the one thrown. *)
Lemma encrypt_throws_cbc :
  outcome (encryptData (P := Ref.platform) 0 session opts_cbc) = Throw Ref.err_state
  /\ encode_fails (P := Ref.platform) 0 session opts_cbc Ref.err_state.
Proof.
  assert (E : outcome (encryptData (P := Ref.platform) 0 session opts_cbc)
              = Throw Ref.err_state) by (vm_compute; reflexivity).
  split; [exact E|].
  exact (proj1 (encrypt_throws (P := Ref.platform) 0 session opts_cbc Ref.err_state) E).
Defined.

